(** * Dominant corner colour extraction of [render_cli.py]

    A shallow embedding of [extract_thread_color_from_pattern] and of the
    library primitives it calls (binary64 multiplication, [int()], PIL's
    [getpixel], [collections.Counter], the [02X] format), followed by the
    properties of the extractor. *)

From Stdlib Require Import ZArith List String Ascii Bool Lia.
From Stdlib Require Import Floats.SpecFloat.
Import ListNotations.

Open Scope Z_scope.

(** ** Exceptions and the error monad *)

(** The Python exceptions the modelled statements can raise. *)
Inductive exn : Type :=
| IndexError
| OverflowError
| ValueError.

Inductive result (A : Type) : Type :=
| Ok (a : A)
| Raise (e : exn).

Arguments Ok {A} a.
Arguments Raise {A} e.

Definition bind {A B : Type} (c : result A) (k : A -> result B) : result B :=
  match c with
  | Ok a => k a
  | Raise e => Raise e
  end.

Notation "x <- c ;; k" := (bind c (fun x => k))
  (at level 61, c at next level, right associativity).

(** A [for] loop over a list whose body may raise: the loop state is threaded
    through the iterations and the first exception aborts the loop. *)
Fixpoint for_each {A S : Type} (xs : list A) (body : A -> S -> result S)
    (s : S) : result S :=
  match xs with
  | [] => Ok s
  | x :: rest =>
      match body x s with
      | Ok s' => for_each rest body s'
      | Raise e => Raise e
      end
  end.

(** Python's [range(n)]: [0, 1, ..., n-1], empty when [n <= 0]. *)
Definition range (n : Z) : list Z :=
  map Z.of_nat (seq 0 (Z.to_nat n)).

(** ** Python floats: IEEE 754 binary64 *)

Module Float.

Definition prec : Z := 53.
Definition emax : Z := 1024.

Definition mul : spec_float -> spec_float -> spec_float := SFmul prec emax.
Definition div : spec_float -> spec_float -> spec_float := SFdiv prec emax.

(** [float(n)] for a Python int: the nearest binary64, ties to even. *)
Definition of_int (n : Z) : spec_float := binary_normalize prec emax n 0 false.

(** [int(x)]: truncation towards zero; infinities and NaN raise. *)
Definition to_int (x : spec_float) : result Z :=
  match x with
  | S754_zero _ => Ok 0
  | S754_finite s m e =>
      Ok (cond_Zopp s
            (if 0 <=? e then Zpos m * 2 ^ e else Zpos m / 2 ^ (- e)))
  | S754_infinity _ => Raise OverflowError
  | S754_nan => Raise ValueError
  end.

(** The literals [0.1], [0.9] and [0.05] as binary64 values. *)
Definition lit_0_1 : spec_float := S754_finite false 7205759403792794 (-56).
Definition lit_0_9 : spec_float := S754_finite false 8106479329266893 (-53).
Definition lit_0_05 : spec_float := S754_finite false 7205759403792794 (-57).

End Float.

(** [int(n * c)] for a Python int [n] and a float [c]. *)
Definition int_of_scaled (n : Z) (c : spec_float) : result Z :=
  Float.to_int (Float.mul (Float.of_int n) c).

(** ** Images *)

(** A pixel of an RGBA image: the 4-tuple returned by [getpixel]. *)
Record Pixel : Type := mkPixel {
  px_r : Z;
  px_g : Z;
  px_b : Z;
  px_a : Z
}.

(** An (R, G, B) tuple. *)
Definition Color : Type := (Z * Z * Z)%type.

Definition rgb (p : Pixel) : Color := (px_r p, px_g p, px_b p).

Definition Color_eqb (c d : Color) : bool :=
  let '(r1, g1, b1) := c in
  let '(r2, g2, b2) := d in
  (r1 =? r2) && (g1 =? g2) && (b1 =? b2).

(** The decoded image after [convert("RGBA")]: its size and its pixel grid.
    [pixel_at] is only meaningful inside [[0, width) x [0, height)]. *)
Record Image : Type := mkImage {
  img_width : Z;
  img_height : Z;
  pixel_at : Z -> Z -> Pixel
}.

(** PIL's [Image.getpixel((x, y))]: a negative coordinate counts from the far
    edge, and a coordinate outside the image raises [IndexError]. *)
Definition getpixel (im : Image) (x y : Z) : result Pixel :=
  let x := if x <? 0 then img_width im + x else x in
  let y := if y <? 0 then img_height im + y else y in
  if (x <? 0) || (img_width im <=? x) || (y <? 0) || (img_height im <=? y)
  then Raise IndexError
  else Ok (pixel_at im x y).

(** ** [collections.Counter] *)

(** A [Counter] is a dict, and a dict keeps its keys in insertion order: an
    association list with distinct keys. *)
Definition CounterT : Type := list (Color * Z).

(** [self[elem] = self.get(elem, 0) + 1] *)
Fixpoint counter_add (elem : Color) (d : CounterT) : CounterT :=
  match d with
  | [] => [(elem, 1)]
  | (k, v) :: rest =>
      if Color_eqb k elem then (k, v + 1) :: rest
      else (k, v) :: counter_add elem rest
  end.

(** [Counter(iterable)] *)
Definition Counter (xs : list Color) : CounterT :=
  fold_left (fun d elem => counter_add elem d) xs [].

(** [max(it, key=itemgetter(1))] from a first candidate: a later item replaces
    the candidate only when its count is strictly greater. *)
Fixpoint max_by_count (best : Color * Z) (items : CounterT) : Color * Z :=
  match items with
  | [] => best
  | it :: rest => max_by_count (if snd best <? snd it then it else best) rest
  end.

(** [most_common(1)], that is [heapq.nlargest(1, self.items(), key=...)], whose
    shortcut for [n == 1] is [max]. *)
Definition most_common_1 (d : CounterT) : list (Color * Z) :=
  match d with
  | [] => []
  | it :: rest => [max_by_count it rest]
  end.

(** [l[0]] *)
Definition item0 {A : Type} (l : list A) : result A :=
  match l with
  | [] => Raise IndexError
  | a :: _ => Ok a
  end.

(** ** The [02X] format *)

Definition hex_digit (d : Z) : ascii :=
  nth (Z.to_nat d)
    ["0"; "1"; "2"; "3"; "4"; "5"; "6"; "7";
     "8"; "9"; "A"; "B"; "C"; "D"; "E"; "F"]%char "?"%char.

(** The uppercase hexadecimal digits of [n >= 0], prepended to [acc]. *)
Fixpoint hex_upper_aux (fuel : nat) (n : Z) (acc : string) : string :=
  match fuel with
  | O => acc
  | S fuel' =>
      let acc' := String (hex_digit (n mod 16)) acc in
      if n <? 16 then acc' else hex_upper_aux fuel' (n / 16) acc'
  end.

Definition hex_upper (n : Z) : string :=
  hex_upper_aux (S (Z.to_nat (Z.log2 n))) n EmptyString.

Fixpoint zeros (k : nat) : string :=
  match k with
  | O => EmptyString
  | S k' => String "0"%char (zeros k')
  end.

(** [format(n, "02X")]: the sign, then the digits padded with zeros on the left
    so that the whole field has at least two characters. *)
Definition format_02X (n : Z) : string :=
  let sign := if n <? 0 then "-"%string else EmptyString in
  let digits := hex_upper (Z.abs n) in
  (sign ++ zeros (2 - String.length sign - String.length digits) ++ digits)%string.

(** [f"#{c[0]:02X}{c[1]:02X}{c[2]:02X}"] *)
Definition hex_color (c : Color) : string :=
  let '(r, g, b) := c in
  ("#" ++ format_02X r ++ format_02X g ++ format_02X b)%string.

(** ** The extractor *)

(** Lines 30-33: the sample region, as [(sample_width, sample_height, start_x,
    start_y)]. *)
Definition sample_region (width height : Z) : result (Z * Z * Z * Z) :=
  w10 <- int_of_scaled width Float.lit_0_1 ;;
  let sample_width := Z.max 1 w10 in
  h20 <- int_of_scaled height Float.lit_0_05 ;;
  let sample_height := Z.max 1 h20 in
  w90 <- int_of_scaled width Float.lit_0_9 ;;
  let start_x := Z.max 0 w90 in
  h5 <- int_of_scaled height Float.lit_0_05 ;;
  let start_y := Z.max 0 h5 in
  Ok (sample_width, sample_height, start_x, start_y).

(** Lines 36-49: the two nested loops appending to [colors]. *)
Definition collect_colors (pil_image : Image)
    (sample_width sample_height start_x start_y : Z) : result (list Color) :=
  for_each (range sample_height) (fun sy colors =>
    for_each (range sample_width) (fun sx colors =>
      let x := start_x + sx in
      let y := start_y + sy in
      pixel <- getpixel pil_image x y ;;
      if 200 <? px_a pixel then Ok (colors ++ [rgb pixel]) else Ok colors)
    colors)
  [].

(** Lines 52-63: the choice between the most common colour and the fallback
    pixel, and the formatting. *)
Definition select_color (pil_image : Image) (start_x start_y : Z)
    (colors : list Color) : result string :=
  match colors with
  | _ :: _ =>
      entry <- item0 (most_common_1 (Counter colors)) ;;
      Ok (hex_color (fst entry))
  | [] =>
      let x := Z.min (img_width pil_image - 1) start_x in
      let y := start_y in
      pixel <- getpixel pil_image x y ;;
      Ok (hex_color (rgb pixel))
  end.

(** Lines 36-63 for a given region. *)
Definition extract_from_region (pil_image : Image)
    (sample_width sample_height start_x start_y : Z) : result string :=
  colors <- collect_colors pil_image sample_width sample_height start_x start_y ;;
  select_color pil_image start_x start_y colors.

(** The value of [colors] when line 52 is reached. *)
Definition sampled_colors (pil_image : Image) : result (list Color) :=
  region <- sample_region (img_width pil_image) (img_height pil_image) ;;
  let '(sample_width, sample_height, start_x, start_y) := region in
  collect_colors pil_image sample_width sample_height start_x start_y.

(** [extract_thread_color_from_pattern], applied to the decoded image. *)
Definition extract_thread_color_from_pattern (pil_image : Image)
    : result string :=
  region <- sample_region (img_width pil_image) (img_height pil_image) ;;
  let '(sample_width, sample_height, start_x, start_y) := region in
  extract_from_region pil_image sample_width sample_height start_x start_y.

(** ** Specification vocabulary *)

(** The image has positive dimensions that fit PIL's C [int] fields. *)
Definition dims_ok (im : Image) : Prop :=
  0 < img_width im < 2 ^ 31 /\ 0 < img_height im < 2 ^ 31.

Definition in_image (im : Image) (x y : Z) : Prop :=
  0 <= x < img_width im /\ 0 <= y < img_height im.

Definition byte_range (n : Z) : Prop := 0 <= n <= 255.

Definition byte_pixel (p : Pixel) : Prop :=
  byte_range (px_r p) /\ byte_range (px_g p) /\ byte_range (px_b p)
  /\ byte_range (px_a p).

Definition byte_color (c : Color) : Prop :=
  byte_range (fst (fst c)) /\ byte_range (snd (fst c)) /\ byte_range (snd c).

(** Every pixel of the grid is a quadruple of 8-bit channels. *)
Definition channels_ok (im : Image) : Prop :=
  forall x y, in_image im x y -> byte_pixel (pixel_at im x y).

(** The sample rectangle of the specification, in exact integer arithmetic:
    [floor(0.9 w)] is [9 * w / 10], [floor(0.1 w)] is [w / 10] and
    [floor(0.05 h)] is [h / 20]. *)
Definition spec_start_x (im : Image) : Z := 9 * img_width im / 10.
Definition spec_start_y (im : Image) : Z := img_height im / 20.
Definition spec_sample_w (im : Image) : Z := Z.max 1 (img_width im / 10).
Definition spec_sample_h (im : Image) : Z := Z.max 1 (img_height im / 20).

Definition in_sample_rect (im : Image) (x y : Z) : Prop :=
  spec_start_x im <= x < spec_start_x im + spec_sample_w im /\
  spec_start_y im <= y < spec_start_y im + spec_sample_h im.

(** The coordinates of a rectangle in row-major order: top row first, each
    row from left to right. *)
Definition row_major (sample_width sample_height start_x start_y : Z)
    : list (Z * Z) :=
  flat_map
    (fun sy => map (fun sx => (start_x + sx, start_y + sy)) (range sample_width))
    (range sample_height).

(** The (R, G, B) triples of the pixels at [coords] whose alpha exceeds 200,
    in the order of [coords]. *)
Definition opaque_colors (im : Image) (coords : list (Z * Z)) : list Color :=
  map rgb
    (filter (fun p => 200 <? px_a p)
       (map (fun xy => pixel_at im (fst xy) (snd xy)) coords)).

(** The pixels of the sample rectangle and its opaque colours, row-major. *)
Definition sample_coords (im : Image) : list (Z * Z) :=
  row_major (spec_sample_w im) (spec_sample_h im)
    (spec_start_x im) (spec_start_y im).

Definition sample_pixels (im : Image) : list Pixel :=
  map (fun xy => pixel_at im (fst xy) (snd xy)) (sample_coords im).

Definition sample_opaque_colors (im : Image) : list Color :=
  opaque_colors im (sample_coords im).

(** The fallback pixel of the specification. *)
Definition fallback_pixel (im : Image) : Pixel :=
  pixel_at im (Z.min (img_width im - 1) (spec_start_x im)) (spec_start_y im).

(** Number of occurrences of [c] in [xs]. *)
Fixpoint count (c : Color) (xs : list Color) : Z :=
  match xs with
  | [] => 0
  | x :: rest => (if Color_eqb x c then 1 else 0) + count c rest
  end.

(** Position of the first occurrence of [c] in [xs] ([length xs] if none). *)
Fixpoint index_of (c : Color) (xs : list Color) : nat :=
  match xs with
  | [] => O
  | x :: rest => if Color_eqb x c then O else S (index_of c rest)
  end.

(** The distinct elements of [xs], ordered by first occurrence. *)
Fixpoint first_seen (xs : list Color) : list Color :=
  match xs with
  | [] => []
  | x :: rest => x :: filter (fun y => negb (Color_eqb x y)) (first_seen rest)
  end.

(** The dict built by counting: one entry per distinct element, in order of
    first occurrence, holding its number of occurrences. *)
Definition tally (xs : list Color) : CounterT :=
  map (fun c => (c, count c xs)) (first_seen xs).

(** [c] is the most frequent element of [xs]; among the elements that are as
    frequent, it is the one that occurs first. *)
Definition most_frequent_first (xs : list Color) (c : Color) : Prop :=
  In c xs
  /\ (forall c', count c' xs <= count c xs)
  /\ (forall c', c' <> c -> count c' xs = count c xs ->
        (index_of c xs < index_of c' xs)%nat).

(** Recognisers for the output format [^#[0-9A-F]{6}$]. *)
Definition is_upper_hex (a : ascii) : bool :=
  let n := Z.of_nat (nat_of_ascii a) in
  ((48 <=? n) && (n <=? 57)) || ((65 <=? n) && (n <=? 70)).

Definition matches_hex_color (s : string) : bool :=
  match s with
  | String h (String a (String b (String c (String d (String e
      (String f EmptyString)))))) =>
      Ascii.eqb h "#" && is_upper_hex a && is_upper_hex b && is_upper_hex c
      && is_upper_hex d && is_upper_hex e && is_upper_hex f
  | _ => false
  end.

(** Reading a [#RRGGBB] string back. *)
Definition hex_value (a : ascii) : option Z :=
  let n := Z.of_nat (nat_of_ascii a) in
  if (48 <=? n) && (n <=? 57) then Some (n - 48)
  else if (65 <=? n) && (n <=? 70) then Some (n - 55)
  else None.

Definition hex_pair (a b : ascii) : option Z :=
  match hex_value a, hex_value b with
  | Some hi, Some lo => Some (16 * hi + lo)
  | _, _ => None
  end.

Definition parse_hex_color (s : string) : option Color :=
  match s with
  | String h (String a (String b (String c (String d (String e
      (String f EmptyString)))))) =>
      if Ascii.eqb h "#" then
        match hex_pair a b, hex_pair c d, hex_pair e f with
        | Some r, Some g, Some bl => Some (r, g, bl)
        | _, _, _ => None
        end
      else None
  | _ => None
  end.

(** [format_02X n] is two uppercase hexadecimal digits that read back as [n]. *)
Definition two_hex_digits_of (n : Z) (s : string) : bool :=
  match s with
  | String a (String b EmptyString) =>
      is_upper_hex a && is_upper_hex b
      && match hex_pair a b with
         | Some v => v =? n
         | None => false
         end
  | _ => false
  end.

(** ** Concrete images *)

Definition px (r g b a : Z) : Pixel := mkPixel r g b a.

(** 100x100, filled with (0,127,255,255), with a transparent 10x10 block at
    (20..29, 40..49), outside the sample rectangle. *)
Definition img_swatch : Image :=
  mkImage 100 100 (fun x y =>
    if (20 <=? x) && (x <? 30) && (40 <=? y) && (y <? 50)
    then px 0 127 255 0 else px 0 127 255 255).

(** 50x50, fully transparent, with pixel (45,2) = (10,20,30,0). *)
Definition img_transparent : Image :=
  mkImage 50 50 (fun x y =>
    if (x =? 45) && (y =? 2) then px 10 20 30 0 else px 0 0 0 0).

(** 20x20, red in column 18 and blue elsewhere. *)
Definition img_red_blue : Image :=
  mkImage 20 20 (fun x y =>
    if x =? 18 then px 255 0 0 255 else px 0 0 255 255).

(** 1x1 images: an opaque and a transparent pixel. *)
Definition img_dot_opaque : Image := mkImage 1 1 (fun _ _ => px 1 2 3 255).
Definition img_dot_clear : Image := mkImage 1 1 (fun _ _ => px 1 2 3 0).

(** [img_swatch] with every pixel outside the top-right corner repainted. *)
Definition img_swatch_repainted : Image :=
  mkImage 100 100 (fun x y =>
    if (90 <=? x) && (y <? 10) then px 0 127 255 255 else px 9 9 9 255).
(** ** [main]: configuration and command line *)

(** Uncaught outcomes of [main]'s statements besides the exceptions above. *)
Inductive cli_error : Type :=
| Uncaught (e : exn)
| KeyError (key : string)
| TypeError
| SystemExit (code : Z).

Inductive outcome (A : Type) : Type :=
| Returned (a : A)
| Failed (e : cli_error).

Arguments Returned {A} a.
Arguments Failed {A} e.

(** The values [json.load] produces. *)
#[warnings="-register-all"]
Inductive value : Type :=
| VNull
| VBool (b : bool)
| VInt (n : Z)
| VFloat (x : spec_float)
| VStr (s : string)
| VList (l : list value)
| VDict (d : list (string * value)).

(** The [config] dict: string keys in insertion order. *)
Definition Config : Type := list (string * value).

(** [config.get(key)] *)
Fixpoint dict_get (key : string) (d : Config) : option value :=
  match d with
  | [] => None
  | (k, v) :: rest => if String.eqb k key then Some v else dict_get key rest
  end.

(** [config[key] = v]: an existing key keeps its position, a new key goes
    last. *)
Fixpoint dict_set (key : string) (v : value) (d : Config) : Config :=
  match d with
  | [] => [(key, v)]
  | (k, v') :: rest =>
      if String.eqb k key then (k, v) :: rest
      else (k, v') :: dict_set key v rest
  end.

(** [config[key]] *)
Definition dict_item (key : string) (d : Config) : outcome value :=
  match dict_get key d with
  | Some v => Returned v
  | None => Failed (KeyError key)
  end.

(** [len(l)] *)
Definition len {A : Type} (l : list A) : Z := Z.of_nat (List.length l).

(** [l[i]] for a list: a negative index counts from the end. *)
Definition list_item {A : Type} (l : list A) (i : Z) : result A :=
  let i := if i <? 0 then i + len l else i in
  if i <? 0 then Raise IndexError
  else match nth_error l (Z.to_nat i) with
       | Some a => Ok a
       | None => Raise IndexError
       end.

(** [range(start, stop, step)] for a positive [step]. *)
Definition range3 (start stop step : Z) : list Z :=
  map (fun k => start + step * Z.of_nat k)
    (seq 0 (Z.to_nat ((stop - start + step - 1) / step))).

(** The options of the parser that [main] copies into [config]; [None] is
    argparse's default for an option that was not given. *)
Record Args : Type := mkArgs {
  arg_samples : option Z;
  arg_engine : option string;
  arg_resolution : option Z;
  arg_width : option Z;
  arg_height : option Z;
  arg_threads_color : option string;
  arg_preset : option (list string);
  arg_cameras : option (list string);
  arg_output : option string
}.

(** Lines 126-131: the pairs of [--preset], with [int] the builtin applied to
    the frame strings. *)
Definition parse_presets (int : string -> result Z) (preset : list string)
    : result (list (string * Z)) :=
  for_each (range3 0 (len preset) 2) (fun i presets =>
    if i + 1 <? len preset then
      camera_name <- list_item preset i ;;
      frame_str <- list_item preset (i + 1) ;;
      frame_num <- int frame_str ;;
      Ok (presets ++ [(camera_name, frame_num)])
    else Ok presets)
  [].

(** The list of [[camera_name, frame_num]] lists stored under ["presets"]. *)
Definition presets_value (presets : list (string * Z)) : value :=
  VList (map (fun p => VList [VStr (fst p); VInt (snd p)]) presets).

(** [if arg: config[key] = arg] for an int option: [None] and [0] are falsy. *)
Definition override_int (key : string) (arg : option Z) (config : Config)
    : Config :=
  match arg with
  | Some n => if n =? 0 then config else dict_set key (VInt n) config
  | None => config
  end.

(** [if arg: config[key] = arg] for a string option: [None] and the empty
    string are falsy. *)
Definition override_str (key : string) (arg : option string) (config : Config)
    : Config :=
  match arg with
  | Some EmptyString => config
  | Some s => dict_set key (VStr s) config
  | None => config
  end.

(** Lines 124-132. *)
Definition override_presets (int : string -> result Z)
    (arg : option (list string)) (config : Config) : result Config :=
  match arg with
  | Some ((_ :: _) as preset) =>
      presets <- parse_presets int preset ;;
      Ok (dict_set "presets" (presets_value presets) config)
  | _ => Ok config
  end.

(** Lines 133-134. *)
Definition override_cameras (arg : option (list string)) (config : Config)
    : Config :=
  match arg with
  | Some ((_ :: _) as cameras) => dict_set "cameras" (VList (map VStr cameras)) config
  | _ => config
  end.

(** Lines 112-136: the command line overrides the loaded configuration. *)
Definition apply_overrides (int : string -> result Z) (args : Args)
    (config : Config) : result Config :=
  let config := override_int "samples" (arg_samples args) config in
  let config := override_str "engine" (arg_engine args) config in
  let config := override_int "resolution_scale" (arg_resolution args) config in
  let config := override_int "output_width" (arg_width args) config in
  let config := override_int "output_height" (arg_height args) config in
  let config := override_str "threads_color" (arg_threads_color args) config in
  config <- override_presets int (arg_preset args) config ;;
  let config := override_cameras (arg_cameras args) config in
  let config := override_str "output_dir" (arg_output args) config in
  Ok config.

(** The keys that lines 112-136 may write. *)
Definition override_keys : list string :=
  ["samples"; "engine"; "resolution_scale"; "output_width"; "output_height";
   "threads_color"; "presets"; "cameras"; "output_dir"]%string.

(** The int options and the string options, each with the key it writes. *)
Definition int_options (args : Args) : list (string * option Z) :=
  [("samples", arg_samples args); ("resolution_scale", arg_resolution args);
   ("output_width", arg_width args); ("output_height", arg_height args)]%string.

Definition str_options (args : Args) : list (string * option string) :=
  [("engine", arg_engine args); ("threads_color", arg_threads_color args);
   ("output_dir", arg_output args)]%string.

(** Lines 370-381, the second definition of [main]: a frame that is not a
    number ends the program with status 1, and an empty list of pairs leaves
    [config] alone. *)
Definition override_presets_exit (int : string -> result Z)
    (arg : option (list string)) (config : Config) : outcome Config :=
  match arg with
  | Some ((_ :: _) as preset) =>
      match parse_presets int preset with
      | Ok [] => Returned config
      | Ok ((_ :: _) as presets) =>
          Returned (dict_set "presets" (presets_value presets) config)
      | Raise ValueError => Failed (SystemExit 1)
      | Raise e => Failed (Uncaught e)
      end
  | _ => Returned config
  end.

(** Lines 184-188: [engine_map.get(config['engine'], 'CYCLES')]. A list or a
    dict is not hashable and cannot be looked up. *)
Definition engine_map : list (string * string) :=
  [("CYCLES", "CYCLES"); ("EEVEE", "BLENDER_EEVEE_NEXT")]%string.

Fixpoint map_get_default (key : string) (m : list (string * string))
    (default : string) : string :=
  match m with
  | [] => default
  | (k, v) :: rest => if String.eqb k key then v else map_get_default key rest default
  end.

Definition blender_engine (config : Config) : outcome string :=
  match dict_get "engine" config with
  | None => Failed (KeyError "engine")
  | Some (VStr s) => Returned (map_get_default s engine_map "CYCLES")
  | Some (VList _) | Some (VDict _) => Failed TypeError
  | Some _ => Returned "CYCLES"%string
  end.

(** The pairing of a flat argument list that [--preset] documents:
    [c1 f1 c2 f2 ...], a last argument without partner left out. *)
Fixpoint pair_up (l : list string) : list (string * string) :=
  match l with
  | c :: f :: rest => (c, f) :: pair_up rest
  | _ => []
  end.

(** Converting the frames of the pairs in order, stopping at the first
    failure. *)
Fixpoint convert_pairs (int : string -> result Z) (ps : list (string * string))
    : result (list (string * Z)) :=
  match ps with
  | [] => Ok []
  | (c, f) :: rest =>
      n <- int f ;;
      tail <- convert_pairs int rest ;;
      Ok ((c, n) :: tail)
  end.

(** A decimal reader for the examples: digits only. *)
Fixpoint decimal_aux (s : string) (acc : Z) : result Z :=
  match s with
  | EmptyString => Ok acc
  | String a rest =>
      let d := Z.of_nat (nat_of_ascii a) - 48 in
      if (0 <=? d) && (d <=? 9) then decimal_aux rest (10 * acc + d)
      else Raise ValueError
  end.

Definition decimal (s : string) : result Z :=
  match s with
  | EmptyString => Raise ValueError
  | _ => decimal_aux s 0
  end.

(** ** [main]: the replacements written into the render script *)

Definition obind {A B : Type} (c : outcome A) (k : A -> outcome B) : outcome B :=
  match c with
  | Returned a => k a
  | Failed e => Failed e
  end.

Notation "x <-- c ;; k" := (obind c (fun x => k))
  (at level 61, c at next level, right associativity).

(** An exception of a called function, not caught by the caller. *)
Definition uncaught {A : Type} (r : result A) : outcome A :=
  match r with
  | Ok a => Returned a
  | Raise e => Failed (Uncaught e)
  end.

(** [config.get(key, default)] *)
Definition dict_get_default (key : string) (default : value) (d : Config)
    : value :=
  match dict_get key d with
  | Some v => v
  | None => default
  end.

(** The builtins and library calls of lines 233-254, taken as given:
    [str(x)], [repr(x)], [repr(tuple(x))] (which raises when [x] cannot be
    iterated), [os.path.splitext(name)[0]], and the decoding
    [Image.open(str(patterns_dir / name)).convert("RGBA")] with which
    [extract_thread_color_from_pattern] starts. *)
Record Builtins : Type := mkBuiltins {
  py_str : value -> string;
  py_repr : value -> string;
  py_repr_tuple : value -> outcome string;
  splitext_root : string -> string;
  open_rgba : string -> outcome Image
}.

(** Lines 233-254 for one pattern: the placeholders of the render script with
    the text that replaces each, in the order of the [replace] calls. *)
Definition script_replacements (B : Builtins) (config : Config)
    (blender_engine pattern_name : string) : outcome (list (string * string)) :=
  cameras_str <-- py_repr_tuple B (dict_get_default "cameras" (VList []) config) ;;
  pil_image <-- open_rgba B pattern_name ;;
  thread_color <-- uncaught (extract_thread_color_from_pattern pil_image) ;;
  let presets := dict_get_default "presets" (VList []) config in
  let presets_str := py_repr B presets in
  let pattern_base := splitext_root B pattern_name in
  samples <-- dict_item "samples" config ;;
  scale <-- dict_item "resolution_scale" config ;;
  Returned
    [("__PATTERN_PLACEHOLDER__", pattern_name);
     ("__PATTERN_BASE_PLACEHOLDER__", pattern_base);
     ("__ENGINE_PLACEHOLDER__", blender_engine);
     ("__SAMPLES_PLACEHOLDER__", py_str B samples);
     ("__SCALE_PLACEHOLDER__", py_str B scale);
     ("__OUTPUT_WIDTH_PLACEHOLDER__",
        py_str B (dict_get_default "output_width" (VInt 480) config));
     ("__OUTPUT_HEIGHT_PLACEHOLDER__",
        py_str B (dict_get_default "output_height" (VInt 480) config));
     ("__PRESETS_PLACEHOLDER__", presets_str);
     ("__CAMERAS_PLACEHOLDER__", cameras_str);
     ("__THREADS_COLOR_PLACEHOLDER__", thread_color)]%string.




(** Stand-ins for the builtins in the examples. *)
Definition sample_builtins : Builtins :=
  mkBuiltins
    (fun v => match v with
              | VInt 64 => "64"
              | VInt 100 => "100"
              | VInt 480 => "480"
              | _ => "?"
              end%string)
    (fun _ => "[]"%string)
    (fun _ => Returned "()"%string)
    (fun name => name)
    (fun _ => Returned img_swatch).

Definition sample_config : Config :=
  [("samples", VInt 64); ("resolution_scale", VInt 100);
   ("threads_color", VStr "#FFFFFF")]%string.


(** ** Binary64 arithmetic *)

(** The three literals are the correctly rounded quotients 1/10, 9/10 and
    5/100, that is, the doubles Python reads [0.1], [0.9] and [0.05] as. *)
Lemma literals_correctly_rounded :
  Float.lit_0_1 = Float.div (Float.of_int 1) (Float.of_int 10)
  /\ Float.lit_0_9 = Float.div (Float.of_int 9) (Float.of_int 10)
  /\ Float.lit_0_05 = Float.div (Float.of_int 5) (Float.of_int 100).
Proof. repeat split; vm_compute; reflexivity. Qed.

Lemma digits2_pos_size (p : positive) : digits2_pos p = Pos.size p.
Proof. induction p; simpl; congruence. Qed.

Lemma digits2_bounds (p : positive) :
  2 ^ (Zpos (digits2_pos p) - 1) <= Zpos p < 2 ^ Zpos (digits2_pos p).
Proof.
  rewrite digits2_pos_size. split.
  - pose proof (Pos.size_le p) as H.
    apply Pos2Z.pos_le_pos in H. rewrite Pos2Z.inj_pow in H.
    replace (Zpos (Pos.size p)) with (Z.succ (Zpos (Pos.size p) - 1)) in H by lia.
    rewrite Z.pow_succ_r in H by lia.
    change (Zpos p~0) with (2 * Zpos p) in H. lia.
  - pose proof (Pos.size_gt p) as H.
    apply Pos2Z.pos_lt_pos in H. rewrite Pos2Z.inj_pow in H. exact H.
Qed.

Lemma digits2_unique (p : positive) (d : Z) :
  2 ^ (d - 1) <= Zpos p < 2 ^ d -> Zpos (digits2_pos p) = d.
Proof.
  intros [Hlo Hhi]. pose proof (digits2_bounds p) as [Blo Bhi].
  set (D := Zpos (digits2_pos p)) in *.
  assert (0 < D) by (unfold D; lia).
  assert (0 < d).
  { destruct (Z_lt_le_dec 0 d) as [|Hd]; [assumption|].
    assert (2 ^ d <= 1).
    { destruct (Z.eq_dec d 0) as [->|]; [simpl; lia|].
      rewrite Z.pow_neg_r by lia. lia. }
    lia. }
  assert (d - 1 < D).
  { apply (Z.pow_lt_mono_r_iff 2); lia. }
  assert (D - 1 < d).
  { apply (Z.pow_lt_mono_r_iff 2); lia. }
  lia.
Qed.

Lemma shr_1_m (mrs : shr_record) :
  0 <= shr_m mrs -> shr_m (shr_1 mrs) = shr_m mrs / 2.
Proof.
  destruct mrs as [m r s]; simpl. intros Hm.
  destruct m as [|[p|p|]|p]; simpl; try reflexivity; try lia.
  - apply Z.div_unique with 1; lia.
  - apply Z.div_unique with 0; lia.
Qed.

Lemma iter_shr_1_m (k : positive) (mrs : shr_record) :
  0 <= shr_m mrs -> shr_m (iter_pos shr_1 k mrs) = shr_m mrs / 2 ^ Zpos k.
Proof.
  revert mrs. induction k as [k IH|k IH|]; intros mrs Hm; simpl iter_pos.
  - assert (H1 : 0 <= shr_m (shr_1 mrs)).
    { rewrite shr_1_m by assumption. apply Z.div_pos; lia. }
    assert (H2 : 0 <= shr_m (iter_pos shr_1 k (shr_1 mrs))).
    { rewrite IH by assumption. apply Z.div_pos; [lia|]. apply Z.pow_pos_nonneg; lia. }
    rewrite IH, IH, shr_1_m by assumption.
    rewrite !Z.div_div by (try apply Z.pow_pos_nonneg; lia).
    f_equal. rewrite <- Z.pow_add_r by lia.
    change 2 with (2 ^ 1) at 1. rewrite <- Z.pow_add_r by lia. f_equal; lia.
  - assert (H2 : 0 <= shr_m (iter_pos shr_1 k mrs)).
    { rewrite IH by assumption. apply Z.div_pos; [lia|]. apply Z.pow_pos_nonneg; lia. }
    rewrite IH, IH by assumption.
    rewrite !Z.div_div by (try apply Z.pow_pos_nonneg; lia).
    f_equal. rewrite <- Z.pow_add_r by lia. f_equal; lia.
  - rewrite shr_1_m by assumption. reflexivity.
Qed.
Lemma fexp_normal (d : Z) :
  -1074 <= d - 53 -> fexp Float.prec Float.emax d = d - 53.
Proof. unfold fexp, emin, Float.prec, Float.emax. lia. Qed.

Lemma shr_fexp_normal (p : positive) (e : Z) (l : location) :
  -1074 <= Zpos (digits2_pos p) + e - 53 ->
  shr_fexp Float.prec Float.emax (Zpos p) e l
  = shr (shr_record_of_loc (Zpos p) l) e (Zpos (digits2_pos p) - 53).
Proof.
  intros H. unfold shr_fexp. f_equal.
  change (Zdigits2 (Zpos p)) with (Zpos (digits2_pos p)).
  rewrite fexp_normal by lia. lia.
Qed.

Lemma finite_or_overflow (p : positive) (e : Z) :
  e <= 971 ->
  (if e <=? Float.emax - Float.prec then S754_finite false p e
   else S754_infinity false) = S754_finite false p e.
Proof.
  intros H. unfold Float.emax, Float.prec.
  destruct (Z.leb_spec e (1024 - 53)); [reflexivity | lia].
Qed.

Lemma binary_round_aux_exact (p : positive) (e : Z) :
  Zpos (digits2_pos p) = 53 -> -1074 <= e <= 971 ->
  binary_round_aux Float.prec Float.emax false (Zpos p) e loc_Exact
  = S754_finite false p e.
Proof.
  intros HD He. unfold binary_round_aux.
  rewrite shr_fexp_normal, HD by lia.
  change (53 - 53) with 0. cbn [shr shr_record_of_loc shr_m loc_of_shr_record round_nearest_even].
  rewrite shr_fexp_normal, HD by lia.
  change (53 - 53) with 0. cbn [shr shr_record_of_loc shr_m].
  apply finite_or_overflow. lia.
Qed.

Lemma round_nearest_even_cases (m : Z) (l : location) :
  round_nearest_even m l = m \/ round_nearest_even m l = m + 1.
Proof.
  destruct l as [|[| |]]; simpl; auto.
  destruct (Z.even m); auto.
Qed.

Lemma binary_round_aux_faithful (p : positive) (e : Z) :
  let n := Zpos (digits2_pos p) - 53 in
  let q := Zpos p / 2 ^ n in
  0 < n -> -1074 <= e + n -> e + n + 1 <= 971 ->
  exists m' e',
    binary_round_aux Float.prec Float.emax false (Zpos p) e loc_Exact
    = S754_finite false m' e'
    /\ e <= e'
    /\ (Zpos m' * 2 ^ (e' - e) = q * 2 ^ n \/
        Zpos m' * 2 ^ (e' - e) = (q + 1) * 2 ^ n).
Proof.
  intros n q Hn Hlo Hhi.
  pose proof (digits2_bounds p) as [Blo Bhi].
  assert (Hq : 2 ^ 52 <= q < 2 ^ 53).
  { unfold q. replace (Zpos (digits2_pos p)) with (n + 53) in Bhi, Blo by (unfold n; lia).
    replace (n + 53 - 1) with (52 + n) in Blo by lia.
    replace (n + 53) with (53 + n) in Bhi by lia.
    rewrite Z.pow_add_r in Blo, Bhi by lia.
    assert (0 < 2 ^ n) by (apply Z.pow_pos_nonneg; lia).
    split.
    - apply Z.div_le_lower_bound; lia.
    - apply Z.div_lt_upper_bound; lia. }
  unfold binary_round_aux.
  rewrite shr_fexp_normal by (unfold n in *; lia).
  fold n. fold n in q.
  destruct n as [|k|k] eqn:En; try lia.
  cbn [shr].
  set (mrs := iter_pos shr_1 k (shr_record_of_loc (Zpos p) loc_Exact)).
  assert (Hm : shr_m mrs = q).
  { unfold mrs. rewrite iter_shr_1_m by (simpl; lia). reflexivity. }
  rewrite Hm.
  set (q' := round_nearest_even q (loc_of_shr_record mrs)).
  assert (Hq' : q' = q \/ q' = q + 1) by apply round_nearest_even_cases.
  assert (Hpos : exists r, q' = Zpos r) by (destruct q'; try lia; eauto).
  destruct Hpos as [r Hr]. rewrite Hr.
  destruct (Z.eq_dec q' (2 ^ 53)) as [Htop | Hntop].
  - (* the rounded mantissa carries into a 54th bit *)
    assert (HD : Zpos (digits2_pos r) = 54).
    { apply digits2_unique. rewrite <- Hr, Htop. simpl; lia. }
    rewrite shr_fexp_normal, HD by lia.
    change (54 - 53) with 1.
    assert (Er : r = 9007199254740992%positive)
      by (apply Pos2Z.inj; rewrite <- Hr, Htop; reflexivity).
    subst r.
    cbn [shr shr_record_of_loc iter_pos shr_1 shr_m].
    rewrite finite_or_overflow by lia.
    eexists _, _. split; [reflexivity|]. split; [lia|].
    right. assert (Eq1 : q + 1 = 2 ^ 53) by lia. rewrite Eq1.
    replace (e + Zpos k + 1 - e) with (1 + Zpos k) by lia.
    rewrite Z.pow_add_r by lia. simpl (2 ^ 1). simpl (2 ^ 53). lia.
  - assert (HD : Zpos (digits2_pos r) = 53).
    { apply digits2_unique. rewrite <- Hr. simpl (53 - 1). lia. }
    rewrite shr_fexp_normal, HD by lia.
    change (53 - 53) with 0.
    cbn [shr shr_record_of_loc shr_m].
    rewrite finite_or_overflow by lia.
    eexists _, _. split; [reflexivity|]. split; [lia|].
    replace (e + Zpos k - e) with (Zpos k) by lia.
    rewrite <- Hr. destruct Hq' as [-> | ->]; auto.
Qed.
Lemma iter_xO_pow (p d : positive) :
  Zpos (Pos.iter xO p d) = Zpos p * 2 ^ Zpos d.
Proof.
  induction d as [|d IH] using Pos.peano_ind.
  - simpl. lia.
  - rewrite Pos.iter_succ, Pos2Z.inj_xO, IH, Pos2Z.inj_succ, Z.pow_succ_r by lia.
    lia.
Qed.

Lemma of_int_normal (w : Z) :
  0 < w < 2 ^ 53 ->
  exists (m : positive) (a : Z),
    Float.of_int w = S754_finite false m (- a)
    /\ 0 <= a <= 52
    /\ Zpos m = w * 2 ^ a
    /\ 2 ^ 52 <= Zpos m < 2 ^ 53.
Proof.
  intros [Hlo Hhi]. destruct w as [|p|p]; try lia.
  pose proof (digits2_bounds p) as [Blo Bhi].
  set (D := Zpos (digits2_pos p)) in *.
  assert (HD : 1 <= D <= 53).
  { split; [unfold D; lia|].
    assert (D - 1 < 53); [|lia]. apply (Z.pow_lt_mono_r_iff 2); lia. }
  unfold Float.of_int, binary_normalize, binary_round.
  fold D. rewrite fexp_normal by lia.
  unfold shl_align.
  destruct (D + 0 - 53 - 0) as [|d|d] eqn:Ed; try lia.
  - assert (D = 53) by lia.
    rewrite binary_round_aux_exact by (fold D; lia).
    exists p, 0. repeat split; try lia.
    replace 52 with (D - 1) by lia. exact Blo.
  - assert (Ha : D + Zpos d = 53) by lia.
    assert (Hm : Zpos (Pos.iter xO p d) = Zpos p * 2 ^ Zpos d) by apply iter_xO_pow.
    assert (Hb : 2 ^ 52 <= Zpos (Pos.iter xO p d) < 2 ^ 53).
    { rewrite Hm.
      replace 52 with ((D - 1) + Zpos d) by lia.
      replace 53 with (D + Zpos d) by lia.
      rewrite !Z.pow_add_r by lia.
      assert (0 < 2 ^ Zpos d) by (apply Z.pow_pos_nonneg; lia).
      split; nia. }
    rewrite binary_round_aux_exact.
    + exists (Pos.iter xO p d), (Zpos d).
      split; [f_equal; lia|]. repeat split; try lia.
    + apply digits2_unique. simpl (53 - 1). exact Hb.
    + lia.
Qed.
Lemma to_int_finite_value (m : positive) (e e' : Z) (X : Z) :
  e < 0 -> e <= e' -> Zpos m * 2 ^ (e' - e) = X ->
  Float.to_int (S754_finite false m e') = Ok (X / 2 ^ (- e)).
Proof.
  intros He Hee HX. unfold Float.to_int, cond_Zopp. f_equal.
  assert (0 < 2 ^ (- e)) by (apply Z.pow_pos_nonneg; lia).
  destruct (Z.leb_spec 0 e') as [Hp | Hn].
  - subst X. replace (e' - e) with (e' + - e) by lia.
    rewrite Z.pow_add_r, Z.mul_assoc, Z.div_mul by lia. reflexivity.
  - subst X. replace (- e) with (- e' + (e' - e)) by lia.
    assert (0 < 2 ^ (- e')) by (apply Z.pow_pos_nonneg; lia).
    assert (0 < 2 ^ (e' - e)) by (apply Z.pow_pos_nonneg; lia).
    rewrite Z.pow_add_r, Z.div_mul_cancel_r by lia. reflexivity.
Qed.

Lemma int_of_scaled_floor (w : Z) (M : positive) (S k : Z) :
  0 < w < 2 ^ 31 ->
  2 ^ 52 <= Zpos M < 2 ^ 53 ->
  53 <= S <= 60 ->
  k * 2 ^ S <= w * Zpos M ->
  w * Zpos M + 2 ^ 32 <= (k + 1) * 2 ^ S ->
  int_of_scaled w (S754_finite false M (- S)) = Ok k.
Proof.
  intros Hw HM HS Hlo Hhi.
  destruct (of_int_normal w) as (mw & a & Ew & Ha & Hmw & Bmw); [simpl; lia|].
  unfold int_of_scaled. rewrite Ew.
  unfold Float.mul, SFmul. cbn [xorb].
  set (p := (mw * M)%positive).
  assert (Hp : Zpos p = w * Zpos M * 2 ^ a) by (unfold p; rewrite Pos2Z.inj_mul; lia).
  assert (Bp : 2 ^ 104 <= Zpos p < 2 ^ 106).
  { unfold p. rewrite Pos2Z.inj_mul.
    change (2 ^ 104) with (2 ^ 52 * 2 ^ 52). change (2 ^ 106) with (2 ^ 53 * 2 ^ 53).
    split; [apply Z.mul_le_mono_nonneg | apply Z.mul_lt_mono_nonneg]; lia. }
  pose proof (digits2_bounds p) as [Dlo Dhi].
  set (n := Zpos (digits2_pos p) - 53).
  assert (Hn : 52 <= n <= 53).
  { assert (104 < Zpos (digits2_pos p)) by (apply (Z.pow_lt_mono_r_iff 2); lia).
    assert (Zpos (digits2_pos p) - 1 < 106) by (apply (Z.pow_lt_mono_r_iff 2); lia).
    unfold n. lia. }
  destruct (binary_round_aux_faithful p (- a + - S)) as (m' & e' & Er & Hee & HX);
    fold n; try lia.
  fold n in HX. rewrite Er.
  set (X := Zpos m' * 2 ^ (e' - (- a + - S))) in *.
  rewrite (to_int_finite_value m' (- a + - S) e' X) by (try reflexivity; lia).
  f_equal.
  replace (- (- a + - S)) with (a + S) by lia.
  set (A := 2 ^ a) in *. set (N := 2 ^ n) in *. set (q := Zpos p / N) in *.
  assert (HA : 0 < A) by (apply Z.pow_pos_nonneg; lia).
  assert (HN : 0 < N) by (apply Z.pow_pos_nonneg; lia).
  assert (HU : 0 < 2 ^ (S - n)) by (apply Z.pow_pos_nonneg; lia).
  assert (ES : 2 ^ S = N * 2 ^ (S - n)).
  { unfold N. rewrite <- Z.pow_add_r by lia. f_equal. lia. }
  assert (EAS : 2 ^ (a + S) = A * 2 ^ S) by (unfold A; apply Z.pow_add_r; lia).
  assert (Hq1 : q * N <= Zpos p) by (unfold q; rewrite Z.mul_comm; apply Z.mul_div_le; lia).
  assert (Hq2 : Zpos p < (q + 1) * N).
  { unfold q. rewrite Z.mul_comm. apply Z.mul_succ_div_gt; lia. }
  assert (HN52 : N * 2 ^ 52 <= Zpos p).
  { unfold N. rewrite <- Z.pow_add_r by lia.
    replace (n + 52) with (Zpos (digits2_pos p) - 1) by (unfold n; lia). exact Dlo. }
  assert (HqN : q * N <= X <= (q + 1) * N) by lia.
  (* lower bound *)
  assert (Lo : k * (A * 2 ^ S) <= X).
  { assert (k * A * 2 ^ (S - n) <= q).
    { unfold q. apply Z.div_le_lower_bound; [lia|].
      rewrite Hp.
      replace (N * (k * A * 2 ^ (S - n))) with (k * (N * 2 ^ (S - n)) * A) by ring.
      rewrite <- ES. apply Z.mul_le_mono_nonneg_r; lia. }
    replace (k * (A * 2 ^ S)) with (k * A * 2 ^ (S - n) * N) by (rewrite ES; ring).
    apply Z.le_trans with (q * N); [|lia].
    apply Z.mul_le_mono_nonneg_r; lia. }
  (* upper bound *)
  assert (Hi : X < (k + 1) * (A * 2 ^ S)).
  { assert (HwM : w * Zpos M < 2 ^ 84).
    { change (2 ^ 84) with (2 ^ 31 * 2 ^ 53).
      apply Z.mul_lt_mono_nonneg; lia. }
    assert (N * 2 ^ 52 < 2 ^ 84 * A).
    { rewrite Hp in HN52. apply Z.le_lt_trans with (w * Zpos M * A); [exact HN52|].
      apply Z.mul_lt_mono_pos_r; lia. }
    assert (N < 2 ^ 32 * A).
    { change (2 ^ 84) with (2 ^ 32 * 2 ^ 52) in *. nia. }
    apply Z.le_lt_trans with (Zpos p + N); [lia|].
    rewrite Hp.
    apply Z.lt_le_trans with ((w * Zpos M + 2 ^ 32) * A); [lia|].
    replace ((k + 1) * (A * 2 ^ S)) with ((k + 1) * 2 ^ S * A) by ring.
    apply Z.mul_le_mono_nonneg_r; lia. }
  rewrite EAS.
  symmetry. apply Z.div_unique with (X - k * (A * 2 ^ S)); [|ring].
  left. lia.
Qed.

Ltac eval_pow2 :=
  repeat match goal with
  | |- context [2 ^ ?n] =>
      let v := eval vm_compute in (2 ^ n) in change (2 ^ n) with v
  | H : context [2 ^ ?n] |- _ =>
      let v := eval vm_compute in (2 ^ n) in change (2 ^ n) with v in H
  end.

Ltac floor_lia :=
  try lia;
  match goal with
  | |- context [?a / ?d] =>
      let E := fresh "E" in
      let B := fresh "B" in
      pose proof (Z.div_mod a d ltac:(lia)) as E;
      pose proof (Z.mod_pos_bound a d ltac:(lia)) as B;
      generalize dependent (a / d); generalize dependent (a mod d);
      intros; lia
  end.

Lemma int_of_scaled_0_1 (w : Z) :
  0 < w < 2 ^ 31 -> int_of_scaled w Float.lit_0_1 = Ok (w / 10).
Proof.
  intros Hw. apply (int_of_scaled_floor w _ 56); eval_pow2; floor_lia.
Qed.

Lemma int_of_scaled_0_9 (w : Z) :
  0 < w < 2 ^ 31 -> int_of_scaled w Float.lit_0_9 = Ok (9 * w / 10).
Proof.
  intros Hw. apply (int_of_scaled_floor w _ 53); eval_pow2; floor_lia.
Qed.

Lemma int_of_scaled_0_05 (w : Z) :
  0 < w < 2 ^ 31 -> int_of_scaled w Float.lit_0_05 = Ok (w / 20).
Proof.
  intros Hw. apply (int_of_scaled_floor w _ 57); eval_pow2; floor_lia.
Qed.

(** ** The sample region *)

Lemma sample_region_floor (w h : Z) :
  0 < w < 2 ^ 31 -> 0 < h < 2 ^ 31 ->
  sample_region w h
  = Ok (Z.max 1 (w / 10), Z.max 1 (h / 20), 9 * w / 10, h / 20).
Proof.
  intros Hw Hh. unfold sample_region.
  rewrite int_of_scaled_0_1, int_of_scaled_0_05, int_of_scaled_0_9 by assumption.
  cbn [bind]. do 2 f_equal.
  - f_equal. assert (0 <= 9 * w / 10) by (apply Z.div_pos; lia). lia.
  - assert (0 <= h / 20) by (apply Z.div_pos; lia). lia.
Qed.

Lemma sample_region_spec (im : Image) :
  dims_ok im ->
  sample_region (img_width im) (img_height im)
  = Ok (spec_sample_w im, spec_sample_h im, spec_start_x im, spec_start_y im).
Proof. intros [Hw Hh]. apply sample_region_floor; assumption. Qed.

(** The rectangle has at least one pixel each way and lies in the image. *)
Lemma sample_rect_bounds (im : Image) :
  0 < img_width im -> 0 < img_height im ->
  1 <= spec_sample_w im /\ 1 <= spec_sample_h im
  /\ 0 <= spec_start_x im
  /\ spec_start_x im + spec_sample_w im <= img_width im
  /\ 0 <= spec_start_y im
  /\ spec_start_y im + spec_sample_h im <= img_height im.
Proof.
  intros Hw Hh.
  unfold spec_sample_w, spec_sample_h, spec_start_x, spec_start_y.
  set (w := img_width im) in *. set (h := img_height im) in *.
  pose proof (Z.div_mod w 10 ltac:(lia)) as Ew.
  pose proof (Z.mod_pos_bound w 10 ltac:(lia)) as Bw.
  pose proof (Z.div_mod (9 * w) 10 ltac:(lia)) as Ew9.
  pose proof (Z.mod_pos_bound (9 * w) 10 ltac:(lia)) as Bw9.
  pose proof (Z.div_mod h 20 ltac:(lia)) as Eh.
  pose proof (Z.mod_pos_bound h 20 ltac:(lia)) as Bh.
  lia.
Qed.

Lemma in_sample_rect_in_image (im : Image) (x y : Z) :
  0 < img_width im -> 0 < img_height im ->
  in_sample_rect im x y -> in_image im x y.
Proof.
  intros Hw Hh [Hx Hy].
  pose proof (sample_rect_bounds im Hw Hh). unfold in_image. lia.
Qed.

(** ** Loops *)

Lemma range_In (n i : Z) : In i (range n) <-> 0 <= i < n.
Proof.
  unfold range. rewrite in_map_iff. split.
  - intros (k & <- & Hk). apply in_seq in Hk. lia.
  - intros Hi. exists (Z.to_nat i). split; [lia|]. apply in_seq. lia.
Qed.

Lemma range_nonpos (n : Z) : n <= 0 -> range n = [].
Proof.
  intros H. unfold range. replace (Z.to_nat n) with O by lia. reflexivity.
Qed.

Lemma row_major_In (sw sh sx sy x y : Z) :
  In (x, y) (row_major sw sh sx sy)
  <-> (sx <= x < sx + sw /\ sy <= y < sy + sh).
Proof.
  unfold row_major. rewrite in_flat_map. split.
  - intros (j & Hj & Hin). apply in_map_iff in Hin as (i & E & Hi).
    apply range_In in Hj. apply range_In in Hi.
    injection E as <- <-. lia.
  - intros [Hx Hy]. exists (y - sy). split; [apply range_In; lia|].
    apply in_map_iff. exists (x - sx). split; [f_equal; lia|].
    apply range_In; lia.
Qed.

Lemma sample_coords_In (im : Image) (x y : Z) :
  In (x, y) (sample_coords im) <-> in_sample_rect im x y.
Proof. apply row_major_In. Qed.

Lemma getpixel_in_image (im : Image) (x y : Z) :
  in_image im x y -> getpixel im x y = Ok (pixel_at im x y).
Proof.
  intros [Hx Hy]. unfold getpixel.
  assert (E1 : (x <? 0) = false) by (apply Z.ltb_ge; lia).
  assert (E2 : (y <? 0) = false) by (apply Z.ltb_ge; lia).
  assert (E3 : (img_width im <=? x) = false) by (apply Z.leb_gt; lia).
  assert (E4 : (img_height im <=? y) = false) by (apply Z.leb_gt; lia).
  rewrite E1, E2. cbv zeta. rewrite E1, E2, E3, E4. reflexivity.
Qed.

Lemma opaque_colors_app (im : Image) (l1 l2 : list (Z * Z)) :
  opaque_colors im (l1 ++ l2) = opaque_colors im l1 ++ opaque_colors im l2.
Proof.
  unfold opaque_colors. rewrite map_app, filter_app, map_app. reflexivity.
Qed.

Lemma opaque_colors_cons (im : Image) (xy : Z * Z) (l : list (Z * Z)) :
  opaque_colors im (xy :: l)
  = (if 200 <? px_a (pixel_at im (fst xy) (snd xy))
     then [rgb (pixel_at im (fst xy) (snd xy))] else [])
    ++ opaque_colors im l.
Proof.
  unfold opaque_colors. cbn [map filter].
  destruct (200 <? px_a (pixel_at im (fst xy) (snd xy))); reflexivity.
Qed.

(** One row of the scan: the inner loop appends the opaque colours of the row,
    from left to right. *)
Lemma scan_row (im : Image) (start_x y : Z) (sxs : list Z) (colors : list Color) :
  (forall sx, In sx sxs -> in_image im (start_x + sx) y) ->
  for_each sxs (fun sx colors =>
      pixel <- getpixel im (start_x + sx) y ;;
      if 200 <? px_a pixel then Ok (colors ++ [rgb pixel]) else Ok colors)
    colors
  = Ok (colors ++ opaque_colors im (map (fun sx => (start_x + sx, y)) sxs)).
Proof.
  revert colors. induction sxs as [|sx rest IH]; intros colors Hin.
  - cbn. rewrite app_nil_r. reflexivity.
  - cbn [for_each map]. rewrite getpixel_in_image by (apply Hin; left; reflexivity).
    cbn [bind]. rewrite opaque_colors_cons. cbn [fst snd].
    destruct (200 <? px_a (pixel_at im (start_x + sx) y)).
    + rewrite IH by (intros; apply Hin; right; assumption).
      rewrite <- app_assoc. reflexivity.
    + rewrite IH by (intros; apply Hin; right; assumption). reflexivity.
Qed.

Lemma scan_rows (im : Image) (sample_width start_x start_y : Z)
    (sys : list Z) (colors : list Color) :
  (forall sx sy, In sx (range sample_width) -> In sy sys ->
     in_image im (start_x + sx) (start_y + sy)) ->
  for_each sys (fun sy colors =>
      for_each (range sample_width) (fun sx colors =>
          pixel <- getpixel im (start_x + sx) (start_y + sy) ;;
          if 200 <? px_a pixel then Ok (colors ++ [rgb pixel]) else Ok colors)
        colors)
    colors
  = Ok (colors ++ opaque_colors im
          (flat_map (fun sy => map (fun sx => (start_x + sx, start_y + sy))
                                 (range sample_width)) sys)).
Proof.
  revert colors. induction sys as [|sy rest IH]; intros colors Hin.
  - cbn. rewrite app_nil_r. reflexivity.
  - cbn [for_each flat_map].
    rewrite scan_row by (intros; apply Hin; [assumption | left; reflexivity]).
    rewrite IH by (intros; apply Hin; [assumption | right; assumption]).
    rewrite opaque_colors_app, app_assoc. reflexivity.
Qed.

(** The loops compute the opaque colours of the rectangle in row-major order,
    provided the rectangle lies in the image. *)
Lemma collect_colors_row_major (im : Image) (sw sh sx sy : Z) :
  (forall x y, In (x, y) (row_major sw sh sx sy) -> in_image im x y) ->
  collect_colors im sw sh sx sy = Ok (opaque_colors im (row_major sw sh sx sy)).
Proof.
  intros Hin. unfold collect_colors.
  rewrite scan_rows; [reflexivity|].
  intros i j Hi Hj. apply Hin. apply row_major_In.
  apply range_In in Hi. apply range_In in Hj. lia.
Qed.

Lemma sampled_colors_spec (im : Image) :
  dims_ok im -> sampled_colors im = Ok (sample_opaque_colors im).
Proof.
  intros Hd. unfold sampled_colors. rewrite sample_region_spec by assumption.
  cbn [bind]. apply collect_colors_row_major.
  intros x y Hxy. apply sample_coords_In in Hxy.
  destruct Hd as [Hw Hh]. apply in_sample_rect_in_image; [lia | lia | assumption].
Qed.

Lemma extract_unfold (im : Image) :
  dims_ok im ->
  extract_thread_color_from_pattern im
  = select_color im (spec_start_x im) (spec_start_y im) (sample_opaque_colors im).
Proof.
  intros Hd. pose proof (sampled_colors_spec im Hd) as Hs.
  unfold extract_thread_color_from_pattern, sampled_colors in *.
  rewrite sample_region_spec in * by assumption. cbn [bind] in *.
  unfold extract_from_region. rewrite Hs. reflexivity.
Qed.

(** ** Counting *)

Lemma Color_eqb_eq (c d : Color) : Color_eqb c d = true <-> c = d.
Proof.
  destruct c as [[r1 g1] b1], d as [[r2 g2] b2]. unfold Color_eqb.
  rewrite !andb_true_iff, !Z.eqb_eq. split.
  - intros [[-> ->] ->]. reflexivity.
  - intros E. injection E as -> -> ->. auto.
Qed.

Lemma Color_eqb_refl (c : Color) : Color_eqb c c = true.
Proof. apply Color_eqb_eq. reflexivity. Qed.

Lemma Color_eqb_neq (c d : Color) : Color_eqb c d = false <-> c <> d.
Proof.
  rewrite <- Color_eqb_eq. destruct (Color_eqb c d); split; congruence.
Qed.

Lemma Color_eqb_sym (c d : Color) : Color_eqb c d = Color_eqb d c.
Proof.
  destruct (Color_eqb c d) eqn:E.
  - apply Color_eqb_eq in E. subst. symmetry. apply Color_eqb_refl.
  - symmetry. apply Color_eqb_neq. apply Color_eqb_neq in E. congruence.
Qed.

Lemma Color_eq_dec (c d : Color) : {c = d} + {c <> d}.
Proof.
  destruct (Color_eqb c d) eqn:E.
  - left. apply Color_eqb_eq. exact E.
  - right. apply Color_eqb_neq. exact E.
Qed.

Lemma count_nonneg (c : Color) (xs : list Color) : 0 <= count c xs.
Proof.
  induction xs as [|x rest IH]; cbn [count]; [lia|].
  destruct (Color_eqb x c); lia.
Qed.

Lemma count_app (c : Color) (xs ys : list Color) :
  count c (xs ++ ys) = count c xs + count c ys.
Proof.
  induction xs as [|x rest IH]; cbn [count app]; [lia|]. rewrite IH. lia.
Qed.

Lemma count_pos_In (c : Color) (xs : list Color) : 0 < count c xs <-> In c xs.
Proof.
  induction xs as [|x rest IH]; cbn [count In]; [lia|].
  pose proof (count_nonneg c rest).
  destruct (Color_eqb x c) eqn:E.
  - apply Color_eqb_eq in E. split; [auto | lia].
  - apply Color_eqb_neq in E. rewrite Z.add_0_l, IH. intuition congruence.
Qed.

Lemma count_notin (c : Color) (xs : list Color) : ~ In c xs -> count c xs = 0.
Proof.
  intros H. pose proof (count_nonneg c xs). pose proof (count_pos_In c xs).
  destruct (Z.eq_dec (count c xs) 0); [assumption|].
  exfalso. apply H. apply count_pos_In. lia.
Qed.

(** ** First occurrences *)

Lemma first_seen_In (c : Color) (xs : list Color) :
  In c (first_seen xs) <-> In c xs.
Proof.
  induction xs as [|x rest IH]; cbn [first_seen In]; [tauto|].
  rewrite filter_In, IH, negb_true_iff, Color_eqb_neq.
  destruct (Color_eq_dec x c); tauto.
Qed.

Lemma first_seen_NoDup (xs : list Color) : NoDup (first_seen xs).
Proof.
  induction xs as [|x rest IH]; cbn [first_seen]; constructor.
  - rewrite filter_In, negb_true_iff, Color_eqb_neq. tauto.
  - apply NoDup_filter. exact IH.
Qed.

Lemma first_seen_snoc (xs : list Color) (x : Color) :
  first_seen (xs ++ [x])
  = first_seen xs ++ (if 0 <? count x xs then [] else [x]).
Proof.
  induction xs as [|y rest IH]; [reflexivity|].
  cbn [app first_seen count]. rewrite IH, filter_app. f_equal. f_equal.
  pose proof (count_nonneg x rest).
  destruct (Color_eqb y x) eqn:E.
  - replace (0 <? 1 + count x rest) with true by (symmetry; apply Z.ltb_lt; lia).
    destruct (0 <? count x rest); cbn [filter]; [reflexivity|].
    rewrite E. reflexivity.
  - rewrite Z.add_0_l.
    destruct (0 <? count x rest); cbn [filter]; [reflexivity|].
    rewrite E. reflexivity.
Qed.

Lemma filter_split {A : Type} (f : A -> bool) (l l1 l2 : list A) (c : A) :
  filter f l = l1 ++ c :: l2 ->
  exists m1 m2, l = m1 ++ c :: m2 /\ filter f m1 = l1 /\ filter f m2 = l2.
Proof.
  revert l1. induction l as [|a rest IH]; intros l1 E; cbn [filter] in E.
  - destruct l1; discriminate.
  - destruct (f a) eqn:Fa.
    + destruct l1 as [|b l1'].
      * injection E as -> E. exists [], rest. cbn. auto.
      * injection E as -> E. destruct (IH _ E) as (m1 & m2 & -> & <- & <-).
        exists (b :: m1), m2. cbn [filter app]. rewrite Fa. auto.
    + destruct (IH _ E) as (m1 & m2 & -> & <- & <-).
      exists (a :: m1), m2. cbn [filter app]. rewrite Fa. auto.
Qed.

(** The order of [first_seen] is the order of first occurrences. *)
Lemma first_seen_order (xs l1 l2 : list Color) (c c' : Color) :
  first_seen xs = l1 ++ c :: l2 -> In c' l2 ->
  (index_of c xs < index_of c' xs)%nat.
Proof.
  revert l1 l2. induction xs as [|x rest IH]; intros l1 l2 E Hin.
  - destruct l1; discriminate.
  - cbn [first_seen] in E. cbn [index_of].
    destruct l1 as [|b l1'].
    + injection E as -> E. rewrite Color_eqb_refl.
      rewrite <- E in Hin. apply filter_In in Hin as [_ Hne].
      apply negb_true_iff in Hne. rewrite Hne. lia.
    + injection E as -> E.
      destruct (filter_split _ _ _ _ _ E) as (m1 & m2 & E' & F1 & F2).
      assert (Hc : In c (filter (fun y => negb (Color_eqb b y)) (first_seen rest))).
      { rewrite E. apply in_or_app. right. left. reflexivity. }
      apply filter_In in Hc as [_ Hc]. apply negb_true_iff in Hc.
      assert (Hc' : In c' (filter (fun y => negb (Color_eqb b y)) (first_seen rest))).
      { rewrite E. apply in_or_app. right. right. assumption. }
      apply filter_In in Hc' as [_ Hc']. apply negb_true_iff in Hc'.
      rewrite Hc, Hc'. apply PeanoNat.Nat.succ_lt_mono with (n := index_of c rest).
      apply (IH m1 m2 E'). rewrite <- F2 in Hin. apply filter_In in Hin. tauto.
Qed.

(** ** [Counter] and [most_common] *)

Lemma counter_add_map (x : Color) (f g : Color -> Z) (L : list Color) (b : bool) :
  NoDup L ->
  (b = true <-> In x L) ->
  (forall c, In c L -> g c = f c + (if Color_eqb c x then 1 else 0)) ->
  (~ In x L -> g x = 1) ->
  counter_add x (map (fun c => (c, f c)) L)
  = map (fun c => (c, g c)) (L ++ (if b then [] else [x])).
Proof.
  revert b. induction L as [|k rest IH]; intros b Hnd Hb Hg Hx.
  - destruct b; [exfalso; apply (proj1 Hb); reflexivity|].
    cbn. rewrite Hx by tauto. reflexivity.
  - inversion Hnd as [|? ? Hk Hnd']; subst.
    cbn [map counter_add app].
    destruct (Color_eqb k x) eqn:E.
    + apply Color_eqb_eq in E. subst k.
      destruct b; [|exfalso; assert (false = true) by (apply Hb; left; reflexivity);
                     discriminate].
      rewrite app_nil_r. rewrite (Hg x) by (left; reflexivity).
      rewrite Color_eqb_refl. f_equal.
      apply map_ext_in. intros c Hc. rewrite (Hg c) by (right; assumption).
      replace (Color_eqb c x) with false; [f_equal; lia|].
      symmetry. apply Color_eqb_neq. intros ->. contradiction.
    + rewrite (Hg k) by (left; reflexivity). rewrite E, Z.add_0_r. f_equal.
      apply Color_eqb_neq in E.
      apply IH.
      * assumption.
      * rewrite Hb. cbn [In]. intuition congruence.
      * intros c Hc. apply Hg. right. assumption.
      * intros Hn. apply Hx. cbn [In]. intuition congruence.
Qed.

Lemma Counter_snoc (xs : list Color) (x : Color) :
  Counter (xs ++ [x]) = counter_add x (Counter xs).
Proof. unfold Counter. rewrite fold_left_app. reflexivity. Qed.

(** [Counter] keeps one entry per distinct element, in order of first
    occurrence, with its number of occurrences. *)
Lemma Counter_tally (xs : list Color) : Counter xs = tally xs.
Proof.
  induction xs as [|x xs IH] using rev_ind; [reflexivity|].
  rewrite Counter_snoc, IH. unfold tally. rewrite first_seen_snoc.
  apply counter_add_map.
  - apply first_seen_NoDup.
  - rewrite Z.ltb_lt, count_pos_In, first_seen_In. tauto.
  - intros c _. rewrite count_app. cbn [count]. rewrite (Color_eqb_sym x c). lia.
  - intros Hn. rewrite first_seen_In in Hn.
    rewrite count_app, (count_notin x xs Hn). cbn [count].
    rewrite Color_eqb_refl. reflexivity.
Qed.

(** [max] returns the first item whose count is maximal. *)
Lemma max_by_count_first_max (best : Color * Z) (items : CounterT) :
  exists pre post,
    best :: items = pre ++ max_by_count best items :: post
    /\ (forall i, In i pre -> snd i < snd (max_by_count best items))
    /\ (forall i, In i post -> snd i <= snd (max_by_count best items)).
Proof.
  revert best. induction items as [|it rest IH]; intros best.
  - exists [], []. cbn. repeat split; intros i [].
  - cbn [max_by_count]. destruct (Z.ltb_spec (snd best) (snd it)) as [Hlt | Hge].
    + destruct (IH it) as (pre & post & E & Hpre & Hpost).
      remember (max_by_count it rest) as r eqn:Dr. clear Dr.
      assert (Hit : snd it <= snd r).
      { assert (Hin : In it (pre ++ r :: post)) by (rewrite <- E; left; reflexivity).
        apply in_app_or in Hin as [Hin | [<- | Hin]];
          [apply Hpre in Hin; lia | lia | apply Hpost in Hin; lia]. }
      exists (best :: pre), post. cbn [app]. rewrite <- E.
      split; [reflexivity|]. split; [|assumption].
      intros i [<- | Hi]; [lia | apply Hpre; assumption].
    + destruct (IH best) as (pre & post & E & Hpre & Hpost).
      remember (max_by_count best rest) as r eqn:Dr. clear Dr.
      destruct pre as [|b pre'].
      * cbn [app] in E. injection E as Eb Er. subst r rest.
        exists [], (it :: post). cbn [app].
        split; [reflexivity|]. split; [intros i []|].
        intros i [<- | Hi]; [lia | apply Hpost; assumption].
      * cbn [app] in E. injection E as Eb Er. subst b.
        exists (best :: it :: pre'), post. cbn [app]. rewrite Er.
        split; [reflexivity|]. split; [|assumption].
        assert (snd best < snd r) by (apply Hpre; left; reflexivity).
        intros i [<- | [<- | Hi]]; [assumption | lia | apply Hpre; right; assumption].
Qed.

(** The entry selected by [Counter(colors).most_common(1)[0]]. *)
Lemma most_common_selects (xs : list Color) :
  xs <> [] ->
  exists c, item0 (most_common_1 (Counter xs)) = Ok (c, count c xs)
            /\ most_frequent_first xs c.
Proof.
  intros Hne. rewrite Counter_tally. unfold tally.
  destruct (first_seen xs) as [|k L'] eqn:EL.
  { destruct xs; [congruence | discriminate]. }
  set (F := fun c : Color => (c, count c xs)).
  cbn [map most_common_1 item0].
  destruct (max_by_count_first_max (F k) (map F L')) as (pre & post & E & Hpre & Hpost).
  set (r := max_by_count (F k) (map F L')) in *.
  change (F k :: map F L') with (map F (k :: L')) in E.
  apply map_eq_app in E as (l1 & l2' & EL' & E1 & E2).
  destruct l2' as [|c l2]; [discriminate|].
  cbn [map] in E2. injection E2 as Er E2.
  exists c. split; [rewrite <- Er; reflexivity|].
  assert (Hr : snd r = count c xs) by (rewrite <- Er; reflexivity).
  assert (HL : forall c', In c' xs -> In c' l1 \/ c' = c \/ In c' l2).
  { intros c' Hc'. apply first_seen_In in Hc'. rewrite EL, EL' in Hc'.
    apply in_app_or in Hc' as [H | [H | H]]; auto. }
  assert (H1 : forall c', In c' l1 -> count c' xs < count c xs).
  { intros c' Hc'. rewrite <- Hr. apply (Hpre (F c')). rewrite <- E1.
    apply in_map. assumption. }
  assert (H2 : forall c', In c' l2 -> count c' xs <= count c xs).
  { intros c' Hc'. rewrite <- Hr. apply (Hpost (F c')). rewrite <- E2.
    apply in_map. assumption. }
  assert (Hc : In c xs).
  { apply first_seen_In. rewrite EL, EL'. apply in_or_app. right. left. reflexivity. }
  split; [assumption|]. split.
  - intros c'. destruct (in_dec Color_eq_dec c' xs) as [Hin | Hnin].
    + destruct (HL c' Hin) as [H | [-> | H]]; [apply H1 in H; lia | lia | auto].
    + rewrite (count_notin c' xs Hnin). apply count_nonneg.
  - intros c' Hneq Heq.
    assert (Hin : In c' xs).
    { apply count_pos_In. rewrite Heq. apply count_pos_In. assumption. }
    destruct (HL c' Hin) as [H | [-> | H]]; [apply H1 in H; lia | congruence |].
    apply (first_seen_order xs l1 l2); [rewrite EL, EL'; reflexivity | assumption].
Qed.

(** At most one colour is most frequent with the earliest first occurrence. *)
Lemma most_frequent_first_unique (xs : list Color) (c d : Color) :
  most_frequent_first xs c -> most_frequent_first xs d -> c = d.
Proof.
  intros (_ & Hc1 & Hc2) (_ & Hd1 & Hd2).
  destruct (Color_eq_dec c d) as [|Hne]; [assumption|].
  assert (E : count c xs = count d xs) by (pose proof (Hc1 d); pose proof (Hd1 c); lia).
  pose proof (Hc2 d (fun H => Hne (eq_sym H)) (eq_sym E)).
  pose proof (Hd2 c Hne E). lia.
Qed.

Lemma select_color_counted (im : Image) (sx sy : Z) (colors : list Color) :
  colors <> [] ->
  exists c, select_color im sx sy colors = Ok (hex_color c)
            /\ most_frequent_first colors c.
Proof.
  intros Hne. destruct (most_common_selects colors Hne) as (c & E & Hc).
  exists c. split; [|assumption].
  destruct colors as [|x rest]; [congruence|].
  unfold select_color. rewrite E. reflexivity.
Qed.

Lemma select_color_fallback (im : Image) (sx sy : Z) :
  in_image im (Z.min (img_width im - 1) sx) sy ->
  select_color im sx sy []
  = Ok (hex_color (rgb (pixel_at im (Z.min (img_width im - 1) sx) sy))).
Proof.
  intros Hin. unfold select_color. rewrite getpixel_in_image by assumption.
  reflexivity.
Qed.

(** ** Formatting *)

Lemma format_02X_bytes_checked :
  forallb (fun n => two_hex_digits_of n (format_02X n)) (range 256) = true.
Proof. vm_compute. reflexivity. Qed.

Lemma format_02X_byte (n : Z) :
  byte_range n -> two_hex_digits_of n (format_02X n) = true.
Proof.
  intros Hn. pose proof format_02X_bytes_checked as H.
  rewrite forallb_forall in H. apply H. apply range_In.
  unfold byte_range in Hn. lia.
Qed.

Lemma format_02X_byte_shape (n : Z) :
  byte_range n ->
  exists a b,
    format_02X n = String a (String b EmptyString)
    /\ is_upper_hex a = true /\ is_upper_hex b = true
    /\ hex_pair a b = Some n.
Proof.
  intros Hn. pose proof (format_02X_byte n Hn) as H.
  destruct (format_02X n) as [|a [|b [|]]]; try discriminate.
  exists a, b. cbn [two_hex_digits_of] in H.
  apply andb_true_iff in H as [H Hv]. apply andb_true_iff in H as [Ha Hb].
  destruct (hex_pair a b) as [v|]; [|discriminate].
  apply Z.eqb_eq in Hv. subst v. auto.
Qed.

(** A colour of 8-bit channels is written as [#RRGGBB] and reads back. *)
Lemma hex_color_bytes (c : Color) :
  byte_color c ->
  String.length (hex_color c) = 7%nat
  /\ matches_hex_color (hex_color c) = true
  /\ parse_hex_color (hex_color c) = Some c.
Proof.
  destruct c as [[r g] b]. intros (Hr & Hg & Hb). cbn [fst snd] in *.
  destruct (format_02X_byte_shape r Hr) as (r1 & r2 & Er & Ur1 & Ur2 & Pr).
  destruct (format_02X_byte_shape g Hg) as (g1 & g2 & Eg & Ug1 & Ug2 & Pg).
  destruct (format_02X_byte_shape b Hb) as (b1 & b2 & Eb & Ub1 & Ub2 & Pb).
  unfold hex_color. rewrite Er, Eg, Eb. cbn [String.append String.length].
  split; [reflexivity|]. split.
  - cbn [matches_hex_color]. rewrite Ur1, Ur2, Ug1, Ug2, Ub1, Ub2. reflexivity.
  - cbn [parse_hex_color]. rewrite Pr, Pg, Pb. reflexivity.
Qed.

Lemma rgb_byte_color (p : Pixel) : byte_pixel p -> byte_color (rgb p).
Proof.
  intros (Hr & Hg & Hb & _). unfold byte_color, rgb. cbn [fst snd]. auto.
Qed.

(** ** Where the selected colour comes from *)

Lemma opaque_colors_In (im : Image) (coords : list (Z * Z)) (c : Color) :
  In c (opaque_colors im coords) <->
  exists x y, In (x, y) coords /\ 200 < px_a (pixel_at im x y)
              /\ c = rgb (pixel_at im x y).
Proof.
  unfold opaque_colors. rewrite in_map_iff. split.
  - intros (p & <- & Hp). apply filter_In in Hp as [Hp Ha].
    apply in_map_iff in Hp as ([x y] & <- & Hxy). cbn [fst snd] in *.
    exists x, y. apply Z.ltb_lt in Ha. auto.
  - intros (x & y & Hxy & Ha & ->). exists (pixel_at im x y). split; [reflexivity|].
    apply filter_In. split; [|apply Z.ltb_lt; assumption].
    apply in_map_iff. exists (x, y). auto.
Qed.

Lemma sample_opaque_colors_nil (im : Image) :
  sample_opaque_colors im = [] <->
  (forall x y, in_sample_rect im x y -> px_a (pixel_at im x y) <= 200).
Proof.
  split.
  - intros E x y Hxy. destruct (Z_le_gt_dec (px_a (pixel_at im x y)) 200) as [|Hgt];
      [assumption|].
    assert (Hin : In (rgb (pixel_at im x y)) (sample_opaque_colors im)).
    { apply opaque_colors_In. exists x, y. rewrite sample_coords_In.
      split; [exact Hxy | split; [lia | reflexivity]]. }
    rewrite E in Hin. destruct Hin.
  - intros H. destruct (sample_opaque_colors im) as [|c rest] eqn:E; [reflexivity|].
    assert (Hin : In c (sample_opaque_colors im)) by (rewrite E; left; reflexivity).
    apply opaque_colors_In in Hin as (x & y & Hxy & Ha & _).
    apply sample_coords_In in Hxy. apply H in Hxy. lia.
Qed.

Lemma fallback_in_image (im : Image) :
  0 < img_width im -> 0 < img_height im ->
  in_image im (Z.min (img_width im - 1) (spec_start_x im)) (spec_start_y im).
Proof.
  intros Hw Hh. pose proof (sample_rect_bounds im Hw Hh). unfold in_image. lia.
Qed.

Lemma fallback_is_corner (im : Image) :
  0 < img_width im -> 0 < img_height im ->
  Z.min (img_width im - 1) (spec_start_x im) = spec_start_x im.
Proof. intros Hw Hh. pose proof (sample_rect_bounds im Hw Hh). lia. Qed.

Lemma extract_fallback (im : Image) :
  dims_ok im -> sample_opaque_colors im = [] ->
  extract_thread_color_from_pattern im = Ok (hex_color (rgb (fallback_pixel im))).
Proof.
  intros Hd E. rewrite extract_unfold, E by assumption.
  destruct Hd as [Hw Hh]. apply select_color_fallback.
  apply fallback_in_image; lia.
Qed.

Lemma extract_counted (im : Image) :
  dims_ok im -> sample_opaque_colors im <> [] ->
  exists c, extract_thread_color_from_pattern im = Ok (hex_color c)
            /\ most_frequent_first (sample_opaque_colors im) c.
Proof.
  intros Hd Hne. rewrite extract_unfold by assumption.
  apply select_color_counted. assumption.
Qed.

(** The returned colour is the colour of a pixel of the image: an opaque
    pixel of the rectangle, or the fallback pixel when there is none. *)
Lemma extract_source_pixel (im : Image) :
  dims_ok im ->
  exists x y,
    in_image im x y
    /\ extract_thread_color_from_pattern im = Ok (hex_color (rgb (pixel_at im x y)))
    /\ ((in_sample_rect im x y /\ 200 < px_a (pixel_at im x y))
        \/ (x = Z.min (img_width im - 1) (spec_start_x im)
            /\ y = spec_start_y im)).
Proof.
  intros Hd. pose proof Hd as [Hw Hh].
  destruct (sample_opaque_colors im) as [|c0 rest] eqn:E.
  - exists (Z.min (img_width im - 1) (spec_start_x im)), (spec_start_y im).
    split; [apply fallback_in_image; lia|].
    split; [apply extract_fallback; assumption | right; auto].
  - destruct (extract_counted im Hd) as (c & Ec & Hin & _); [rewrite E; discriminate|].
    apply opaque_colors_In in Hin as (x & y & Hxy & Ha & ->).
    apply sample_coords_In in Hxy.
    exists x, y. split; [apply in_sample_rect_in_image; [lia | lia | assumption]|].
    split; [assumption | left; auto].
Qed.

(** ** Properties of the extractor *)

Lemma dims_ok_intro (im : Image) (w h : Z) :
  img_width im = w -> img_height im = h ->
  0 < w < 2 ^ 31 -> 0 < h < 2 ^ 31 -> dims_ok im.
Proof. intros Hw Hh Bw Bh. unfold dims_ok. rewrite Hw, Hh. auto. Qed.



(** The swatch scenario: a 100x100 image whose sample rectangle is filled with
    (0,127,255,255) yields [#007FFF], whatever lies outside the rectangle. *)
Lemma swatch_scenario (im : Image) :
  img_width im = 100 -> img_height im = 100 ->
  (forall x y, in_sample_rect im x y -> pixel_at im x y = px 0 127 255 255) ->
  extract_thread_color_from_pattern im = Ok "#007FFF"%string.
Proof.
  intros Hw Hh Hfill.
  assert (Hd : dims_ok im) by (apply (dims_ok_intro im 100 100); try assumption;
                                 split; reflexivity).
  assert (Hcorner : in_sample_rect im 90 5).
  { unfold in_sample_rect, spec_start_x, spec_start_y, spec_sample_w, spec_sample_h.
    rewrite Hw, Hh. repeat split; try discriminate; reflexivity. }
  destruct (extract_counted im Hd) as (c & E & Hin & _).
  { intros E0. rewrite sample_opaque_colors_nil in E0.
    specialize (E0 90 5 Hcorner). rewrite (Hfill 90 5 Hcorner) in E0.
    cbn in E0. lia. }
  apply opaque_colors_In in Hin as (x & y & Hxy & _ & ->).
  apply sample_coords_In in Hxy. rewrite (Hfill x y Hxy) in E. exact E.
Qed.



(** C3. For positive width and height the sample rectangle is
    start_x = floor(0.9 w), sample_w = max(1, floor(0.1 w)),
    start_y = floor(0.05 h), sample_h = max(1, floor(0.05 h)); it has at least
    one pixel each way and lies within [0, w) x [0, h), so every [getpixel] of
    the scan and the fallback [getpixel] succeed and the extractor returns. *)
Theorem sample_rect_in_bounds (im : Image) :
  dims_ok im ->
  let w := img_width im in
  let h := img_height im in
  sample_region w h = Ok (Z.max 1 (w / 10), Z.max 1 (h / 20), 9 * w / 10, h / 20)
  /\ 1 <= spec_sample_w im /\ 1 <= spec_sample_h im
  /\ 0 <= spec_start_x im /\ spec_start_x im + spec_sample_w im <= w
  /\ 0 <= spec_start_y im /\ spec_start_y im + spec_sample_h im <= h
  /\ (forall sx sy,
        In sx (range (spec_sample_w im)) -> In sy (range (spec_sample_h im)) ->
        0 <= spec_start_x im + sx < w /\ 0 <= spec_start_y im + sy < h
        /\ getpixel im (spec_start_x im + sx) (spec_start_y im + sy)
           = Ok (pixel_at im (spec_start_x im + sx) (spec_start_y im + sy)))
  /\ getpixel im (Z.min (w - 1) (spec_start_x im)) (spec_start_y im)
     = Ok (fallback_pixel im)
  /\ exists s, extract_thread_color_from_pattern im = Ok s.
Proof.
  intros Hd w h. pose proof Hd as [Hw Hh].
  pose proof (sample_rect_bounds im ltac:(lia) ltac:(lia)) as B.
  split; [apply sample_region_floor; assumption|].
  repeat (split; [apply B|]).
  split; [|split].
  - intros sx sy Hsx Hsy. apply range_In in Hsx. apply range_In in Hsy.
    assert (Hin : in_image im (spec_start_x im + sx) (spec_start_y im + sy)).
    { unfold in_image. fold w h. lia. }
    split; [apply Hin|]. split; [apply Hin|]. apply getpixel_in_image. exact Hin.
  - apply getpixel_in_image. apply fallback_in_image; lia.
  - destruct (extract_source_pixel im Hd) as (x & y & _ & E & _). eauto.
Qed.

Lemma sample_rect_in_bounds_witness :
  sample_region 100 100 = Ok (10, 5, 90, 5)
  /\ exists s, extract_thread_color_from_pattern img_swatch = Ok s.
Proof.
  assert (Hd : dims_ok img_swatch) by (repeat split; reflexivity).
  split.
  - exact (proj1 (sample_rect_in_bounds img_swatch Hd)).
  - apply (sample_rect_in_bounds img_swatch Hd).
Defined.

(** Whatever the width and height, the sample dimensions that lines 30-31
    compute are at least 1 and the start coordinates of lines 32-33 are not
    negative: a region with a non-positive dimension is never computed. *)
Lemma sample_dimensions_positive (w h sw sh sx sy : Z) :
  sample_region w h = Ok (sw, sh, sx, sy) ->
  1 <= sw /\ 1 <= sh /\ 0 <= sx /\ 0 <= sy.
Proof.
  unfold sample_region.
  destruct (int_of_scaled w Float.lit_0_1) as [w10|e]; cbn [bind];
    [|intros E; discriminate E].
  destruct (int_of_scaled h Float.lit_0_05) as [h20|e]; cbn [bind];
    [|intros E; discriminate E].
  destruct (int_of_scaled w Float.lit_0_9) as [w90|e]; cbn [bind];
    [|intros E; discriminate E].
  intros E. injection E as <- <- <- <-. lia.
Qed.

(** C5. The returned string has 7 characters: [#] and six uppercase
    hexadecimal digits, two per channel, on the counting path and on the
    fallback path alike. *)
Theorem output_is_hex_color (im : Image) :
  dims_ok im -> channels_ok im ->
  exists s,
    extract_thread_color_from_pattern im = Ok s
    /\ String.length s = 7%nat
    /\ matches_hex_color s = true.
Proof.
  intros Hd Hc. destruct (extract_source_pixel im Hd) as (x & y & Hin & E & _).
  exists (hex_color (rgb (pixel_at im x y))). split; [exact E|].
  destruct (hex_color_bytes (rgb (pixel_at im x y))) as (Hl & Hm & _).
  { apply rgb_byte_color. apply Hc. exact Hin. }
  auto.
Qed.

Lemma output_is_hex_color_witness :
  exists s,
    extract_thread_color_from_pattern img_red_blue = Ok s
    /\ String.length s = 7%nat
    /\ matches_hex_color s = true.
Proof.
  apply (output_is_hex_color img_red_blue).
  - repeat split; reflexivity.
  - intros x y _. cbn [img_red_blue pixel_at].
    destruct (x =? 18); repeat split; discriminate.
Defined.

Lemma sample_opaque_colors_pixels (im : Image) :
  sample_opaque_colors im
  = map rgb (filter (fun p => 200 <? px_a p) (sample_pixels im)).
Proof. reflexivity. Qed.

(** C6. On a 20x20 image the sample rectangle is the two pixels (18,1) and
    (19,1); when it holds as many red (255,0,0,255) as blue (0,0,255,255)
    pixels, the red ones first in row-major order, the result is [#FF0000]. *)
Theorem red_first_wins_tie (im : Image) (n : nat) :
  img_width im = 20 -> img_height im = 20 ->
  sample_pixels im = repeat (px 255 0 0 255) n ++ repeat (px 0 0 255 255) n ->
  sample_coords im = [(18, 1); (19, 1)]
  /\ extract_thread_color_from_pattern im = Ok "#FF0000"%string.
Proof.
  intros Hw Hh Hpx.
  assert (Hd : dims_ok im)
    by (apply (dims_ok_intro im 20 20); try assumption; split; reflexivity).
  assert (Hco : sample_coords im = [(18, 1); (19, 1)]).
  { unfold sample_coords, spec_sample_w, spec_sample_h, spec_start_x, spec_start_y.
    rewrite Hw, Hh. reflexivity. }
  split; [exact Hco|].
  rewrite extract_unfold, sample_opaque_colors_pixels by assumption.
  assert (Hn : n = 1%nat).
  { apply (f_equal (@List.length Pixel)) in Hpx.
    unfold sample_pixels in Hpx. rewrite Hco in Hpx.
    rewrite length_app, !repeat_length in Hpx. cbn in Hpx. lia. }
  subst n. rewrite Hpx. reflexivity.
Qed.

Lemma red_first_wins_tie_witness :
  sample_coords img_red_blue = [(18, 1); (19, 1)]
  /\ extract_thread_color_from_pattern img_red_blue = Ok "#FF0000"%string.
Proof.
  apply (red_first_wins_tie img_red_blue 1); reflexivity.
Defined.

(** C7 (as the code has it). A 1x1 image never crashes the extractor: the
    sample rectangle is the single pixel (0,0) and the result is the hex
    encoding of its colour; the fallback path is taken exactly when the alpha
    of that pixel is at most 200, and the counting path otherwise. *)
Theorem one_pixel_image (im : Image) :
  img_width im = 1 -> img_height im = 1 ->
  sample_region (img_width im) (img_height im) = Ok (1, 1, 0, 0)
  /\ sample_coords im = [(0, 0)]
  /\ extract_thread_color_from_pattern im = Ok (hex_color (rgb (pixel_at im 0 0)))
  /\ (px_a (pixel_at im 0 0) <= 200 -> sampled_colors im = Ok [])
  /\ (200 < px_a (pixel_at im 0 0) ->
      sampled_colors im = Ok [rgb (pixel_at im 0 0)]).
Proof.
  intros Hw Hh.
  assert (Hd : dims_ok im)
    by (apply (dims_ok_intro im 1 1); try assumption; split; reflexivity).
  assert (Hco : sample_coords im = [(0, 0)]).
  { unfold sample_coords, spec_sample_w, spec_sample_h, spec_start_x, spec_start_y.
    rewrite Hw, Hh. reflexivity. }
  assert (Hcol : sample_opaque_colors im
                 = if 200 <? px_a (pixel_at im 0 0) then [rgb (pixel_at im 0 0)] else []).
  { unfold sample_opaque_colors. rewrite Hco, opaque_colors_cons. cbn [fst snd].
    apply app_nil_r. }
  split; [rewrite Hw, Hh; reflexivity|].
  split; [exact Hco|]. split; [|split].
  - rewrite extract_unfold, Hcol by assumption.
    destruct (200 <? px_a (pixel_at im 0 0)).
    + cbn [select_color Counter fold_left counter_add most_common_1 item0
           max_by_count bind fst]. reflexivity.
    + unfold select_color, spec_start_x, spec_start_y. rewrite Hw, Hh.
      change (Z.min (1 - 1) (9 * 1 / 10)) with 0. change (1 / 20) with 0.
      rewrite getpixel_in_image; [reflexivity|].
      unfold in_image. rewrite Hw, Hh. lia.
  - intros Ha. rewrite sampled_colors_spec, Hcol by assumption.
    replace (200 <? px_a (pixel_at im 0 0)) with false
      by (symmetry; apply Z.ltb_ge; lia). reflexivity.
  - intros Ha. rewrite sampled_colors_spec, Hcol by assumption.
    replace (200 <? px_a (pixel_at im 0 0)) with true
      by (symmetry; apply Z.ltb_lt; lia). reflexivity.
Qed.

Lemma one_pixel_image_witness :
  extract_thread_color_from_pattern img_dot_clear
  = Ok (hex_color (rgb (pixel_at img_dot_clear 0 0)))
  /\ sampled_colors img_dot_clear = Ok [].
Proof.
  destruct (one_pixel_image img_dot_clear eq_refl eq_refl) as (_ & _ & E & Hf & _).
  split; [exact E|]. apply Hf. discriminate.
Defined.

(** C7, refuted as stated: on a 1x1 image whose pixel is opaque the list
    [colors] is not empty when line 52 is reached, so the result comes from the
    counting branch, not from the fallback branch. *)
Lemma one_pixel_opaque_not_fallback :
  img_width img_dot_opaque = 1 /\ img_height img_dot_opaque = 1
  /\ sampled_colors img_dot_opaque = Ok [(1, 2, 3)]
  /\ sampled_colors img_dot_opaque <> Ok [].
Proof.
  assert (E : sampled_colors img_dot_opaque = Ok [(1, 2, 3)])
    by (vm_compute; reflexivity).
  repeat split; try reflexivity. rewrite E. discriminate.
Qed.

(** ** Dependence on the input *)



(** C10. The result depends only on the image size and on the pixels of the
    sample rectangle and the fallback pixel: two images of equal width and
    height that agree there give the same result, whatever the other pixels. *)
Theorem extract_depends_on_sample_only (im1 im2 : Image) :
  dims_ok im1 ->
  img_width im1 = img_width im2 ->
  img_height im1 = img_height im2 ->
  (forall x y, in_sample_rect im1 x y -> pixel_at im1 x y = pixel_at im2 x y) ->
  fallback_pixel im1 = fallback_pixel im2 ->
  extract_thread_color_from_pattern im1 = extract_thread_color_from_pattern im2.
Proof.
  intros Hd Hw Hh Hrect Hfb.
  assert (Hd2 : dims_ok im2) by (unfold dims_ok in *; rewrite <- Hw, <- Hh; exact Hd).
  assert (Ex : spec_start_x im2 = spec_start_x im1) by (unfold spec_start_x; congruence).
  assert (Ey : spec_start_y im2 = spec_start_y im1) by (unfold spec_start_y; congruence).
  assert (Ec : sample_coords im2 = sample_coords im1).
  { unfold sample_coords, spec_sample_w, spec_sample_h. rewrite Ex, Ey, Hw, Hh.
    reflexivity. }
  assert (Eo : sample_opaque_colors im2 = sample_opaque_colors im1).
  { unfold sample_opaque_colors, opaque_colors. rewrite Ec. do 2 f_equal.
    apply map_ext_in. intros [x y] Hxy. cbn [fst snd].
    symmetry. apply Hrect. apply sample_coords_In. exact Hxy. }
  rewrite (extract_unfold im1), (extract_unfold im2) by assumption.
  rewrite Eo, Ex, Ey.
  destruct (sample_opaque_colors im1) as [|c rest]; [|reflexivity].
  pose proof Hd as [Bw Bh].
  rewrite !select_color_fallback.
  - unfold fallback_pixel in Hfb. rewrite Ex, Ey, <- Hw in Hfb. rewrite <- Hw, Hfb.
    reflexivity.
  - rewrite <- Ex, <- Ey. apply fallback_in_image; unfold dims_ok in Hd2; lia.
  - apply fallback_in_image; lia.
Qed.

Lemma extract_depends_on_sample_only_witness :
  extract_thread_color_from_pattern img_swatch
  = extract_thread_color_from_pattern img_swatch_repainted.
Proof.
  apply extract_depends_on_sample_only; try reflexivity.
  - repeat split; reflexivity.
  - intros x y [[Hx _] [Hy1 Hy2]].
    change (spec_start_x img_swatch) with 90 in Hx.
    change (spec_start_y img_swatch) with 5 in Hy1, Hy2.
    change (spec_sample_h img_swatch) with 5 in Hy2.
    cbn [img_swatch img_swatch_repainted pixel_at].
    replace (20 <=? x) with true by (symmetry; apply Z.leb_le; lia).
    replace (x <? 30) with false by (symmetry; apply Z.ltb_ge; lia).
    replace (90 <=? x) with true by (symmetry; apply Z.leb_le; lia).
    replace (y <? 10) with true by (symmetry; apply Z.ltb_lt; lia).
    reflexivity.
Defined.

(** ** Further properties of the extractor *)






Lemma opaque_colors_agree (im1 im2 : Image) (coords : list (Z * Z)) :
  (forall x y, In (x, y) coords ->
     (200 < px_a (pixel_at im1 x y) <-> 200 < px_a (pixel_at im2 x y))
     /\ (200 < px_a (pixel_at im1 x y) ->
         rgb (pixel_at im1 x y) = rgb (pixel_at im2 x y))) ->
  opaque_colors im1 coords = opaque_colors im2 coords.
Proof.
  induction coords as [|[x y] rest IH]; intros H; [reflexivity|].
  rewrite !opaque_colors_cons. cbn [fst snd].
  destruct (H x y (or_introl eq_refl)) as [Hiff Hrgb].
  rewrite IH by (intros; apply H; right; assumption).
  destruct (Z.ltb_spec 200 (px_a (pixel_at im1 x y))) as [H1 | H1];
    destruct (Z.ltb_spec 200 (px_a (pixel_at im2 x y))) as [H2 | H2];
    try reflexivity; try (exfalso; apply Hiff in H1 || apply Hiff in H2; lia).
  rewrite Hrgb by assumption. reflexivity.
Qed.

(** Pixels whose alpha is at most 200 do not influence the result once the
    rectangle holds an opaque pixel: two images of the same size with the same
    opaque pixels in the rectangle give the same result, whatever their other
    pixels, inside or outside the rectangle. *)
Theorem transparent_pixels_ignored (im1 im2 : Image) :
  dims_ok im1 ->
  img_width im1 = img_width im2 -> img_height im1 = img_height im2 ->
  (exists x y, in_sample_rect im1 x y /\ 200 < px_a (pixel_at im1 x y)) ->
  (forall x y, in_sample_rect im1 x y ->
     (200 < px_a (pixel_at im1 x y) <-> 200 < px_a (pixel_at im2 x y))
     /\ (200 < px_a (pixel_at im1 x y) ->
         rgb (pixel_at im1 x y) = rgb (pixel_at im2 x y))) ->
  extract_thread_color_from_pattern im1 = extract_thread_color_from_pattern im2.
Proof.
  intros Hd Hw Hh (x0 & y0 & Hin0 & Ha0) Hagree.
  assert (Hd2 : dims_ok im2) by (unfold dims_ok in *; rewrite <- Hw, <- Hh; exact Hd).
  assert (Ec : sample_coords im2 = sample_coords im1).
  { unfold sample_coords, spec_sample_w, spec_sample_h, spec_start_x, spec_start_y.
    rewrite Hw, Hh. reflexivity. }
  assert (Eo : sample_opaque_colors im1 = sample_opaque_colors im2).
  { unfold sample_opaque_colors. rewrite Ec. apply opaque_colors_agree.
    intros x y Hxy. apply Hagree. apply sample_coords_In. exact Hxy. }
  rewrite (extract_unfold im1), (extract_unfold im2) by assumption.
  rewrite <- Eo.
  destruct (sample_opaque_colors im1) as [|c rest] eqn:E; [|reflexivity].
  rewrite sample_opaque_colors_nil in E. apply E in Hin0. lia.
Qed.

Lemma transparent_pixels_ignored_witness :
  extract_thread_color_from_pattern img_red_blue
  = extract_thread_color_from_pattern
      (mkImage 20 20 (fun x y =>
         if x =? 18 then px 255 0 0 201
         else if x =? 19 then px 0 0 255 255 else px 5 6 7 0)).
Proof.
  apply transparent_pixels_ignored; try reflexivity.
  - repeat split; reflexivity.
  - exists 18, 1. repeat split; try discriminate; reflexivity.
  - intros x y [[Hx1 Hx2] _].
    change (spec_start_x img_red_blue) with 18 in Hx1, Hx2.
    change (spec_sample_w img_red_blue) with 2 in Hx2.
    cbn [img_red_blue pixel_at].
    destruct (Z.eqb_spec x 18) as [|H18]; [cbn; split; [split; reflexivity|reflexivity]|].
    destruct (Z.eqb_spec x 19) as [|H19]; [|lia].
    cbn; split; [split; reflexivity|reflexivity].
Defined.

Lemma range_head (n : Z) : 0 < n -> exists rest, range n = 0 :: rest.
Proof.
  intros Hn. unfold range. destruct (Z.to_nat n) as [|k] eqn:E; [lia|].
  cbn [seq map]. eauto.
Qed.

(** The fallback pixel is the first pixel the scan visits. With
    [(sample_width, sample_height, start_x, start_y)] as lines 30-33 compute
    them, [min(width - 1, start_x)] is [start_x]; when the pixel at
    (start_x, start_y) is opaque its colour is the first element of [colors];
    and when the fallback branch is taken ([colors] is empty) it returns the
    colour of that pixel, whose alpha is then at most 200. *)
Theorem fallback_is_first_scanned (im : Image) (sw sh sx sy : Z) :
  dims_ok im ->
  sample_region (img_width im) (img_height im) = Ok (sw, sh, sx, sy) ->
  Z.min (img_width im - 1) sx = sx
  /\ (200 < px_a (pixel_at im sx sy) ->
      exists rest, sampled_colors im = Ok (rgb (pixel_at im sx sy) :: rest))
  /\ (sampled_colors im = Ok [] ->
      px_a (pixel_at im sx sy) <= 200
      /\ extract_thread_color_from_pattern im
         = Ok (hex_color (rgb (pixel_at im sx sy)))).
Proof.
  intros Hd Hreg. pose proof Hd as [Hw Hh].
  rewrite sample_region_spec in Hreg by assumption.
  injection Hreg as <- <- <- <-.
  pose proof (sample_rect_bounds im ltac:(lia) ltac:(lia)) as B.
  assert (Em : Z.min (img_width im - 1) (spec_start_x im) = spec_start_x im) by lia.
  assert (Hfirst : exists rest,
             sample_coords im = (spec_start_x im, spec_start_y im) :: rest).
  { unfold sample_coords, row_major.
    destruct (range_head (spec_sample_h im)) as (rows & ->); [lia|].
    destruct (range_head (spec_sample_w im)) as (cols & ->); [lia|].
    cbn [flat_map map app]. rewrite !Z.add_0_r. eauto. }
  destruct Hfirst as [rest Hcoords].
  assert (Hcolors : sample_opaque_colors im
            = (if 200 <? px_a (pixel_at im (spec_start_x im) (spec_start_y im))
               then [rgb (pixel_at im (spec_start_x im) (spec_start_y im))]
               else [])
              ++ opaque_colors im rest).
  { unfold sample_opaque_colors. rewrite Hcoords, opaque_colors_cons. reflexivity. }
  split; [exact Em|]. split.
  - intros Ha. rewrite sampled_colors_spec, Hcolors by assumption.
    replace (200 <? px_a (pixel_at im (spec_start_x im) (spec_start_y im)))
      with true by (symmetry; apply Z.ltb_lt; exact Ha).
    cbn [app]. eauto.
  - intros Hnil. rewrite sampled_colors_spec in Hnil by assumption.
    injection Hnil as Hnil. split.
    + rewrite Hcolors in Hnil.
      destruct (Z.ltb_spec 200 (px_a (pixel_at im (spec_start_x im) (spec_start_y im))))
        as [Hlt | Hge]; [discriminate Hnil | exact Hge].
    + rewrite (extract_fallback im Hd Hnil). unfold fallback_pixel.
      rewrite Em. reflexivity.
Qed.

Lemma fallback_is_first_scanned_witness :
  Z.min (img_width img_transparent - 1) 45 = 45
  /\ (200 < px_a (pixel_at img_transparent 45 2) ->
      exists rest,
        sampled_colors img_transparent
        = Ok (rgb (pixel_at img_transparent 45 2) :: rest))
  /\ (sampled_colors img_transparent = Ok [] ->
      px_a (pixel_at img_transparent 45 2) <= 200
      /\ extract_thread_color_from_pattern img_transparent
         = Ok (hex_color (rgb (pixel_at img_transparent 45 2)))).
Proof.
  apply (fallback_is_first_scanned img_transparent 5 2 45 2).
  - repeat split; reflexivity.
  - vm_compute. reflexivity.
Defined.

Lemma NoDup_map_injective {A B : Type} (f : A -> B) (l : list A) :
  (forall a b, f a = f b -> a = b) -> NoDup l -> NoDup (map f l).
Proof.
  intros Hinj Hnd. induction Hnd as [|a l Ha Hnd IH]; cbn [map]; constructor.
  - intros Hin. apply in_map_iff in Hin as (b & E & Hb).
    apply Hinj in E. subst b. contradiction.
  - exact IH.
Qed.

Lemma range_NoDup (n : Z) : NoDup (range n).
Proof.
  unfold range. apply NoDup_map_injective; [|apply seq_NoDup].
  intros a b H. lia.
Qed.

Lemma range_length (n : Z) : len (range n) = Z.max 0 n.
Proof. unfold len, range. rewrite length_map, length_seq. lia. Qed.

Lemma row_major_NoDup (sw sh sx sy : Z) : NoDup (row_major sw sh sx sy).
Proof.
  unfold row_major.
  assert (Hrow : forall j, NoDup (map (fun i => (sx + i, sy + j)) (range sw))).
  { intros j. apply NoDup_map_injective; [|apply range_NoDup].
    intros a b H. injection H. lia. }
  pose proof (range_NoDup sh) as Hjs.
  induction (range sh) as [|j js IH]; cbn [flat_map]; [constructor|].
  inversion Hjs as [|? ? Hj Hjs']; subst.
  apply NoDup_app; [apply Hrow | apply IH; assumption |].
  intros [x y] Hin Hin'. apply in_map_iff in Hin as (i & E & _).
  apply in_flat_map in Hin' as (j' & Hj' & Hin').
  apply in_map_iff in Hin' as (i' & E' & _).
  injection E as _ Ey. injection E' as _ Ey'.
  assert (j' = j) by lia. subst j'. contradiction.
Qed.

Lemma row_major_length (sw sh sx sy : Z) :
  len (row_major sw sh sx sy) = Z.max 0 sw * Z.max 0 sh.
Proof.
  unfold row_major. rewrite <- (range_length sw), <- (range_length sh).
  unfold len. induction (range sh) as [|j js IH]; cbn [flat_map List.length]; [lia|].
  rewrite length_app, length_map. lia.
Qed.

(** The scan reads each pixel of the sample rectangle exactly once: its
    coordinates are those of the rectangle, without repetition, and there are
    sample_width * sample_height of them. *)
Theorem each_pixel_scanned_once (im : Image) :
  dims_ok im ->
  NoDup (sample_coords im)
  /\ len (sample_coords im) = spec_sample_w im * spec_sample_h im
  /\ (forall x y, In (x, y) (sample_coords im) <-> in_sample_rect im x y)
  /\ sampled_colors im = Ok (opaque_colors im (sample_coords im)).
Proof.
  intros Hd. pose proof Hd as [Hw Hh].
  pose proof (sample_rect_bounds im ltac:(lia) ltac:(lia)) as B.
  split; [apply row_major_NoDup|]. split; [|split].
  - unfold sample_coords. rewrite row_major_length. lia.
  - apply sample_coords_In.
  - apply sampled_colors_spec. assumption.
Qed.

Lemma each_pixel_scanned_once_witness :
  NoDup (sample_coords img_swatch) /\ len (sample_coords img_swatch) = 50.
Proof.
  destruct (each_pixel_scanned_once img_swatch) as (Hn & Hl & _).
  - repeat split; reflexivity.
  - split; [exact Hn | exact Hl].
Defined.

(** Distinct colours of 8-bit channels are written as distinct strings: the
    returned string determines the colour. *)
Theorem hex_color_injective (c d : Color) :
  byte_color c -> byte_color d -> c <> d -> hex_color c <> hex_color d.
Proof.
  intros Hc Hd Hne E.
  destruct (hex_color_bytes c Hc) as (_ & _ & Pc).
  destruct (hex_color_bytes d Hd) as (_ & _ & Pd).
  rewrite E, Pd in Pc. congruence.
Qed.

Lemma hex_color_injective_witness :
  hex_color (255, 0, 0) <> hex_color (0, 0, 255).
Proof.
  apply hex_color_injective; [| | discriminate]; repeat split; discriminate.
Defined.

(** ** The [config] dict *)

Lemma dict_get_set_same (k : string) (v : value) (d : Config) :
  dict_get k (dict_set k v d) = Some v.
Proof.
  induction d as [|[k' v'] rest IH]; cbn [dict_set dict_get].
  - rewrite String.eqb_refl. reflexivity.
  - destruct (String.eqb k' k) eqn:E; cbn [dict_get]; rewrite E; auto.
Qed.

Lemma dict_get_set_other (k k' : string) (v : value) (d : Config) :
  k <> k' -> dict_get k' (dict_set k v d) = dict_get k' d.
Proof.
  intros Hne. induction d as [|[k0 v0] rest IH]; cbn [dict_set dict_get].
  - replace (String.eqb k k') with false; [reflexivity|].
    symmetry. apply String.eqb_neq. exact Hne.
  - destruct (String.eqb k0 k) eqn:E; cbn [dict_get].
    + apply String.eqb_eq in E. subst k0.
      replace (String.eqb k k') with false; [reflexivity|].
      symmetry. apply String.eqb_neq. exact Hne.
    + rewrite IH. reflexivity.
Qed.

Lemma dict_set_keys (k : string) (v : value) (d : Config) :
  exists extra, map fst (dict_set k v d) = map fst d ++ extra.
Proof.
  induction d as [|[k0 v0] rest [extra IH]]; cbn [dict_set].
  - exists [k]. reflexivity.
  - destruct (String.eqb k0 k).
    + exists []. cbn [map fst]. rewrite app_nil_r. reflexivity.
    + exists extra. cbn [map fst app]. rewrite IH. reflexivity.
Qed.

(** ** [--preset] *)

Lemma list_item_middle {A : Type} (pre post : list A) (a : A) :
  list_item (pre ++ a :: post) (len pre) = Ok a.
Proof.
  unfold list_item, len.
  assert (E : (Z.of_nat (List.length pre) <? 0) = false) by (apply Z.ltb_ge; lia).
  rewrite E. cbv zeta. rewrite E.
  rewrite Nat2Z.id, nth_error_app2 by lia.
  rewrite PeanoNat.Nat.sub_diag. reflexivity.
Qed.

Lemma parse_loop (int : string -> result Z) (n : nat) :
  forall (pre rest : list string) (k : nat) (acc : list (string * Z)),
    List.length pre = (2 * k)%nat ->
    n = Z.to_nat ((len rest + 1) / 2) ->
    for_each (map (fun j => 0 + 2 * Z.of_nat j) (seq k n))
      (fun i presets =>
         if i + 1 <? len (pre ++ rest) then
           camera_name <- list_item (pre ++ rest) i ;;
           frame_str <- list_item (pre ++ rest) (i + 1) ;;
           frame_num <- int frame_str ;;
           Ok (presets ++ [(camera_name, frame_num)])
         else Ok presets)
      acc
    = (tail <- convert_pairs int (pair_up rest) ;; Ok (acc ++ tail)).
Proof.
  induction n as [|n IH]; intros pre rest k acc Hpre Hn.
  - assert (rest = []).
    { destruct rest as [|x rest]; [reflexivity|]. exfalso.
      unfold len in Hn. cbn [List.length] in Hn.
      assert (1 <= (Z.of_nat (S (List.length rest)) + 1) / 2)
        by (apply Z.div_le_lower_bound; lia).
      lia. }
    subst rest. cbn. rewrite app_nil_r. reflexivity.
  - destruct rest as [|x [|y r]].
    + discriminate Hn.
    + (* a last argument without partner *)
      assert (n = O) by (cbn in Hn; lia). subst n.
      cbn [seq map for_each]. unfold len at 1. rewrite length_app, Hpre.
      cbn [List.length].
      replace (0 + 2 * Z.of_nat k + 1 <? Z.of_nat (2 * k + 1)) with false
        by (symmetry; apply Z.ltb_ge; lia).
      cbn. rewrite app_nil_r. reflexivity.
    + cbn [seq map for_each pair_up convert_pairs].
      assert (Hlt : (0 + 2 * Z.of_nat k + 1 <? len (pre ++ x :: y :: r)) = true).
      { apply Z.ltb_lt. unfold len. rewrite length_app, Hpre. cbn [List.length]. lia. }
      rewrite Hlt.
      assert (Ei : 0 + 2 * Z.of_nat k = len pre) by (unfold len; lia).
      rewrite Ei, list_item_middle. cbn [bind].
      replace (pre ++ x :: y :: r) with ((pre ++ [x]) ++ y :: r)
        by (rewrite <- app_assoc; reflexivity).
      replace (len pre + 1) with (len (pre ++ [x]))
        by (unfold len; rewrite length_app; cbn [List.length]; lia).
      rewrite list_item_middle. cbn [bind].
      destruct (int y) as [m|e]; cbn [bind]; [|reflexivity].
      replace ((pre ++ [x]) ++ y :: r) with ((pre ++ [x; y]) ++ r)
        by (rewrite <- !app_assoc; reflexivity).
      rewrite (IH (pre ++ [x; y]) r (S k) (acc ++ [(x, m)])).
      * destruct (convert_pairs int (pair_up r)) as [tail|e]; cbn [bind];
          [|reflexivity].
        rewrite <- app_assoc. reflexivity.
      * rewrite length_app, Hpre. cbn [List.length]. lia.
      * unfold len in *. cbn [List.length] in Hn.
        replace (Z.of_nat (S (S (List.length r))) + 1)
          with ((Z.of_nat (List.length r) + 1) + 1 * 2) in Hn by lia.
        rewrite Z.div_add in Hn by lia. lia.
Qed.

(** The index loop over [--preset] reads the arguments as consecutive
    (camera, frame) pairs, converts the frames in order with [int] and stops
    at the first frame that [int] rejects; a last argument without partner
    is left out. *)
Lemma parse_presets_pairs (int : string -> result Z) (preset : list string) :
  parse_presets int preset = convert_pairs int (pair_up preset).
Proof.
  unfold parse_presets, range3.
  replace (len preset - 0 + 2 - 1) with (len preset + 1) by lia.
  rewrite (parse_loop int _ [] preset O []); [|reflexivity|reflexivity].
  destruct (convert_pairs int (pair_up preset)); reflexivity.
Qed.

Lemma pair_up_snoc_even (l : list string) (x : string) :
  Nat.Even (List.length l) -> pair_up (l ++ [x]) = pair_up l.
Proof.
  intros [k Hk]. revert l Hk. induction k as [|k IH]; intros l Hk.
  - destruct l; [reflexivity | discriminate].
  - destruct l as [|a [|b r]]; cbn [List.length] in Hk; try lia.
    cbn [app pair_up]. rewrite IH by lia. reflexivity.
Qed.

Lemma pair_up_length (l : list string) : len (pair_up l) = len l / 2.
Proof.
  unfold len.
  assert (H : forall n l, (List.length l <= n)%nat ->
              Z.of_nat (List.length (pair_up l)) = Z.of_nat (List.length l) / 2).
  { clear l. induction n as [|n IH]; intros l Hl.
    - destruct l; [reflexivity | cbn in Hl; lia].
    - destruct l as [|a [|b r]]; [reflexivity | reflexivity |].
      cbn [pair_up List.length] in *. rewrite !Nat2Z.inj_succ, IH by lia.
      replace (Z.succ (Z.succ (Z.of_nat (List.length r))))
        with (Z.of_nat (List.length r) + 1 * 2) by lia.
      rewrite Z.div_add by lia. lia. }
  apply (H (List.length l)). lia.
Qed.

Lemma pair_up_nth (l : list string) (k : nat) (c f : string) :
  nth_error (pair_up l) k = Some (c, f) <->
  nth_error l (2 * k) = Some c /\ nth_error l (2 * k + 1) = Some f.
Proof.
  revert l. induction k as [|k IH]; intros l.
  - destruct l as [|a [|b r]]; cbn; split;
      try (intros [H1 H2]); try intros H; try discriminate; try congruence.
    split; congruence.
  - destruct l as [|a [|b r]].
    + cbn. split; [discriminate | intros [H _]; discriminate].
    + cbn [pair_up]. replace (2 * S k)%nat with (S (S (2 * k))) by lia.
      cbn. split; [discriminate|]. intros [H _]. destruct (2 * k)%nat; discriminate.
    + cbn [pair_up]. replace (2 * S k)%nat with (S (S (2 * k))) by lia.
      cbn [nth_error Nat.add]. apply IH.
Qed.

Lemma convert_pairs_ok (int : string -> result Z) (pairs : list (string * string))
    (ps : list (string * Z)) :
  convert_pairs int pairs = Ok ps ->
  List.length ps = List.length pairs
  /\ forall k c n, nth_error ps k = Some (c, n) ->
       exists f, nth_error pairs k = Some (c, f) /\ int f = Ok n.
Proof.
  revert ps. induction pairs as [|[c0 f0] rest IH]; intros ps E; cbn in E.
  - injection E as <-. split; [reflexivity|]. intros [|k] c n H; discriminate.
  - destruct (int f0) as [n0|e] eqn:E0; cbn in E; [|discriminate].
    destruct (convert_pairs int rest) as [tail|e]; cbn in E; [|discriminate].
    injection E as <-. destruct (IH tail eq_refl) as [Hl Hn].
    split; [cbn; congruence|].
    intros [|k] c n H; cbn in H.
    + injection H as <- <-. exists f0. auto.
    + apply Hn. exact H.
Qed.

(** On success the presets are the pairs in order: there are
    [len(preset) // 2] of them, the k-th holding argument 2k as camera name
    and the integer read from argument 2k+1 as frame. *)
Theorem parse_presets_entries (int : string -> result Z) (preset : list string)
    (presets : list (string * Z)) :
  parse_presets int preset = Ok presets ->
  len presets = len preset / 2
  /\ forall k c n, nth_error presets k = Some (c, n) ->
       nth_error preset (2 * k) = Some c
       /\ exists f, nth_error preset (2 * k + 1) = Some f /\ int f = Ok n.
Proof.
  rewrite parse_presets_pairs. intros E.
  destruct (convert_pairs_ok int _ _ E) as [Hl Hn]. split.
  - rewrite <- pair_up_length. unfold len. congruence.
  - intros k c n H. destruct (Hn k c n H) as (f & Hf & Hi).
    apply pair_up_nth in Hf as [H1 H2]. eauto.
Qed.

Lemma parse_presets_entries_witness :
  len [("Camera.001", 180); ("Camera.002", 240)]%string
  = len ["Camera.001"; "180"; "Camera.002"; "240"; "Camera.003"]%string / 2.
Proof.
  apply (parse_presets_entries decimal). reflexivity.
Defined.

(** A camera name given last without a frame is dropped without any message:
    the outcome is that of the arguments before it. *)
Theorem parse_presets_drops_unpaired (int : string -> result Z)
    (preset : list string) (camera : string) :
  len preset mod 2 = 0 ->
  parse_presets int (preset ++ [camera]) = parse_presets int preset.
Proof.
  intros Heven. rewrite !parse_presets_pairs, pair_up_snoc_even; [reflexivity|].
  exists (Z.to_nat (len preset / 2)).
  pose proof (Z.div_mod (len preset) 2 ltac:(lia)). unfold len in *. lia.
Qed.

Lemma parse_presets_drops_unpaired_witness :
  parse_presets decimal
    (["Camera.001"%string; "180"%string] ++ ["Camera.002"%string])%list
  = parse_presets decimal ["Camera.001"%string; "180"%string].
Proof.
  apply parse_presets_drops_unpaired. reflexivity.
Defined.

Lemma convert_pairs_raise (int : string -> result Z)
    (pairs : list (string * string)) (e : exn) :
  convert_pairs int pairs = Raise e ->
  exists c f, In (c, f) pairs /\ int f = Raise e.
Proof.
  induction pairs as [|[c0 f0] rest IH]; cbn; [discriminate|].
  destruct (int f0) as [n0|e0] eqn:E0; cbn.
  - destruct (convert_pairs int rest) as [tail|e1]; cbn; [discriminate|].
    intros H. injection H as ->. destruct (IH eq_refl) as (c & f & Hin & Hf).
    exists c, f. auto.
  - intros H. injection H as ->. exists c0, f0. auto.
Qed.

Lemma convert_pairs_total (int : string -> result Z)
    (pairs : list (string * string)) :
  (forall c f, In (c, f) pairs -> exists n, int f = Ok n) ->
  exists ps, convert_pairs int pairs = Ok ps.
Proof.
  induction pairs as [|[c0 f0] rest IH]; intros H; cbn; [eauto|].
  destruct (H c0 f0 (or_introl eq_refl)) as [n ->].
  destruct IH as [tail ->]; [intros; eapply H; right; eassumption|].
  cbn. eauto.
Qed.

(** The parse fails only through [int]: it raises exactly when [int] rejects
    the frame of some pair, with that exception, and returns a list when
    [int] accepts every paired frame; the camera names and an unpaired last
    argument are never converted. *)
Theorem parse_presets_failure (int : string -> result Z) (preset : list string) :
  (forall e, parse_presets int preset = Raise e ->
     exists c f, In (c, f) (pair_up preset) /\ int f = Raise e)
  /\ ((forall c f, In (c, f) (pair_up preset) -> exists n, int f = Ok n) ->
      exists presets, parse_presets int preset = Ok presets).
Proof.
  rewrite parse_presets_pairs. split.
  - intros e. apply convert_pairs_raise.
  - apply convert_pairs_total.
Qed.

Lemma parse_presets_failure_witness :
  exists c f,
    In (c, f) (pair_up ["Camera.001"; "18o"]%string) /\ decimal f = Raise ValueError.
Proof.
  apply (proj1 (parse_presets_failure decimal ["Camera.001"; "18o"]%string)).
  reflexivity.
Defined.

(** ** Overriding the configuration *)

Lemma override_int_get_other (key k : string) (arg : option Z) (config : Config) :
  key <> k -> dict_get k (override_int key arg config) = dict_get k config.
Proof.
  intros Hne. unfold override_int. destruct arg as [n|]; [|reflexivity].
  destruct (n =? 0); [reflexivity|]. apply dict_get_set_other. exact Hne.
Qed.

Lemma override_str_get_other (key k : string) (arg : option string)
    (config : Config) :
  key <> k -> dict_get k (override_str key arg config) = dict_get k config.
Proof.
  intros Hne. unfold override_str. destruct arg as [[|a s]|]; try reflexivity.
  apply dict_get_set_other. exact Hne.
Qed.

Lemma override_cameras_get_other (k : string) (arg : option (list string))
    (config : Config) :
  "cameras"%string <> k ->
  dict_get k (override_cameras arg config) = dict_get k config.
Proof.
  intros Hne. unfold override_cameras. destruct arg as [[|c cs]|]; try reflexivity.
  apply dict_get_set_other. exact Hne.
Qed.

Lemma override_presets_get_other (int : string -> result Z) (k : string)
    (arg : option (list string)) (config config' : Config) :
  "presets"%string <> k ->
  override_presets int arg config = Ok config' ->
  dict_get k config' = dict_get k config.
Proof.
  intros Hne. unfold override_presets. destruct arg as [[|c cs]|]; cbv iota.
  - intros E. injection E as <-. reflexivity.
  - destruct (parse_presets int (c :: cs)) as [ps|e]; cbn [bind];
      [|intros E; discriminate E].
    intros E. injection E as <-. apply dict_get_set_other. exact Hne.
  - intros E. injection E as <-. reflexivity.
Qed.

Lemma override_int_get_same (key : string) (arg : option Z) (config : Config) :
  dict_get key (override_int key arg config)
  = match arg with
    | Some n => if n =? 0 then dict_get key config else Some (VInt n)
    | None => dict_get key config
    end.
Proof.
  unfold override_int. destruct arg as [n|]; [|reflexivity].
  destruct (n =? 0); [reflexivity|]. apply dict_get_set_same.
Qed.

Lemma override_str_get_same (key : string) (arg : option string)
    (config : Config) :
  dict_get key (override_str key arg config)
  = match arg with
    | Some EmptyString => dict_get key config
    | Some s => Some (VStr s)
    | None => dict_get key config
    end.
Proof.
  unfold override_str. destruct arg as [[|a s]|]; try reflexivity.
  apply dict_get_set_same.
Qed.

Lemma override_int_keys (key : string) (arg : option Z) (config : Config) :
  exists extra, map fst (override_int key arg config) = map fst config ++ extra.
Proof.
  unfold override_int. destruct arg as [n|]; [destruct (n =? 0)|];
    try (exists []; rewrite app_nil_r; reflexivity).
  apply dict_set_keys.
Qed.

Lemma override_str_keys (key : string) (arg : option string) (config : Config) :
  exists extra, map fst (override_str key arg config) = map fst config ++ extra.
Proof.
  unfold override_str. destruct arg as [[|a s]|];
    try (exists []; rewrite app_nil_r; reflexivity).
  apply dict_set_keys.
Qed.

Lemma override_cameras_keys (arg : option (list string)) (config : Config) :
  exists extra, map fst (override_cameras arg config) = map fst config ++ extra.
Proof.
  unfold override_cameras. destruct arg as [[|c cs]|];
    try (exists []; rewrite app_nil_r; reflexivity).
  apply dict_set_keys.
Qed.

Lemma override_presets_keys (int : string -> result Z)
    (arg : option (list string)) (config config' : Config) :
  override_presets int arg config = Ok config' ->
  exists extra, map fst config' = map fst config ++ extra.
Proof.
  unfold override_presets. destruct arg as [[|c cs]|]; cbv iota.
  - intros E. injection E as <-. exists []. rewrite app_nil_r. reflexivity.
  - destruct (parse_presets int (c :: cs)) as [ps|e]; cbn [bind];
      [|intros E; discriminate E].
    intros E. injection E as <-. apply dict_set_keys.
  - intros E. injection E as <-. exists []. rewrite app_nil_r. reflexivity.
Qed.

(** The configuration after the six overrides that precede [--preset]. *)
Lemma apply_overrides_inv (int : string -> result Z) (args : Args)
    (config config' : Config) :
  apply_overrides int args config = Ok config' ->
  exists mid,
    override_presets int (arg_preset args)
      (override_str "threads_color" (arg_threads_color args)
        (override_int "output_height" (arg_height args)
          (override_int "output_width" (arg_width args)
            (override_int "resolution_scale" (arg_resolution args)
              (override_str "engine" (arg_engine args)
                (override_int "samples" (arg_samples args) config))))))
    = Ok mid
    /\ config' = override_str "output_dir" (arg_output args)
                   (override_cameras (arg_cameras args) mid).
Proof.
  unfold apply_overrides. cbv zeta.
  destruct (override_presets int (arg_preset args) _) as [mid|e]; cbn [bind];
    [|intros E; discriminate E].
  intros E. injection E as <-. exists mid. auto.
Qed.

Ltac other_key :=
  first [ assumption | discriminate
        | (let H := fresh in intros H; symmetry in H; revert H; assumption) ].

Ltac get_through Hmid :=
  repeat first
    [ rewrite override_str_get_other by other_key
    | rewrite override_int_get_other by other_key
    | rewrite override_cameras_get_other by other_key
    | rewrite (fun k H => override_presets_get_other _ k _ _ _ H Hmid)
        by other_key ].

(** Overriding leaves every other key alone and keeps the existing keys in
    their order: a key outside the nine option keys has the value it had, and
    the key list of the result starts with the key list of the loaded
    configuration. *)
Theorem overrides_keep_other_keys (int : string -> result Z) (args : Args)
    (config config' : Config) :
  apply_overrides int args config = Ok config' ->
  (forall k, ~ In k override_keys -> dict_get k config' = dict_get k config)
  /\ exists extra, map fst config' = map fst config ++ extra.
Proof.
  intros E. destruct (apply_overrides_inv _ _ _ _ E) as (mid & Hmid & ->). split.
  - intros k Hk.
    assert (Hall : forall key, In key override_keys -> key <> k)
      by (intros key Hin ->; contradiction).
    unfold override_keys in Hall.
    rewrite override_str_get_other by (apply Hall; cbn; tauto).
    rewrite override_cameras_get_other by (apply Hall; cbn; tauto).
    rewrite (override_presets_get_other _ _ _ _ _ (Hall "presets"%string ltac:(cbn; tauto)) Hmid).
    rewrite !override_str_get_other, !override_int_get_other
      by (apply Hall; cbn; tauto).
    rewrite override_str_get_other by (apply Hall; cbn; tauto).
    rewrite override_int_get_other by (apply Hall; cbn; tauto).
    reflexivity.
  - destruct (override_str_keys "output_dir" (arg_output args)
                (override_cameras (arg_cameras args) mid)) as [x1 ->].
    destruct (override_cameras_keys (arg_cameras args) mid) as [x2 ->].
    destruct (override_presets_keys _ _ _ _ Hmid) as [x3 ->].
    destruct (override_str_keys "threads_color" (arg_threads_color args)
      (override_int "output_height" (arg_height args)
        (override_int "output_width" (arg_width args)
          (override_int "resolution_scale" (arg_resolution args)
            (override_str "engine" (arg_engine args)
              (override_int "samples" (arg_samples args) config)))))) as [x4 ->].
    destruct (override_int_keys "output_height" (arg_height args)
        (override_int "output_width" (arg_width args)
          (override_int "resolution_scale" (arg_resolution args)
            (override_str "engine" (arg_engine args)
              (override_int "samples" (arg_samples args) config))))) as [x5 ->].
    destruct (override_int_keys "output_width" (arg_width args)
          (override_int "resolution_scale" (arg_resolution args)
            (override_str "engine" (arg_engine args)
              (override_int "samples" (arg_samples args) config)))) as [x6 ->].
    destruct (override_int_keys "resolution_scale" (arg_resolution args)
            (override_str "engine" (arg_engine args)
              (override_int "samples" (arg_samples args) config))) as [x7 ->].
    destruct (override_str_keys "engine" (arg_engine args)
              (override_int "samples" (arg_samples args) config)) as [x8 ->].
    destruct (override_int_keys "samples" (arg_samples args) config) as [x9 ->].
    rewrite <- !app_assoc. eauto.
Qed.

Lemma overrides_keep_other_keys_witness :
  let before := [("blend_file", VStr "a.blend"); ("samples", VInt 128)]%string in
  let after := [("blend_file", VStr "a.blend"); ("samples", VInt 64);
                ("engine", VStr "EEVEE")]%string in
  (forall k, ~ In k override_keys -> dict_get k after = dict_get k before)
  /\ exists extra, map fst after = map fst before ++ extra.
Proof.
  apply (overrides_keep_other_keys decimal
           (mkArgs (Some 64) (Some "EEVEE"%string) None None None None None
              None None)).
  reflexivity.
Defined.

(** The int options and the string options with their keys. *)
Lemma overrides_get_int (int : string -> result Z) (args : Args)
    (config config' : Config) (key : string) (arg : option Z) :
  apply_overrides int args config = Ok config' ->
  In (key, arg) (int_options args) ->
  dict_get key config'
  = match arg with
    | Some n => if n =? 0 then dict_get key config else Some (VInt n)
    | None => dict_get key config
    end.
Proof.
  intros E Hin. destruct (apply_overrides_inv _ _ _ _ E) as (mid & Hmid & ->).
  unfold int_options in Hin. cbn [In] in Hin.
  destruct Hin as [H | [H | [H | [H | []]]]]; injection H as <- <-;
    get_through Hmid; rewrite override_int_get_same; get_through Hmid;
    reflexivity.
Qed.

Lemma overrides_get_str (int : string -> result Z) (args : Args)
    (config config' : Config) (key : string) (arg : option string) :
  apply_overrides int args config = Ok config' ->
  In (key, arg) (str_options args) ->
  dict_get key config'
  = match arg with
    | Some EmptyString => dict_get key config
    | Some s => Some (VStr s)
    | None => dict_get key config
    end.
Proof.
  intros E Hin. destruct (apply_overrides_inv _ _ _ _ E) as (mid & Hmid & ->).
  unfold str_options in Hin. cbn [In] in Hin.
  destruct Hin as [H | [H | [H | []]]]; injection H as <- <-;
    get_through Hmid; rewrite override_str_get_same; get_through Hmid;
    reflexivity.
Qed.

(** An option given on the command line with a non-zero number or a
    non-empty string replaces the value of its key, whatever the file held
    and whatever the other options are. *)
Theorem given_option_wins (int : string -> result Z) (args : Args)
    (config config' : Config) :
  apply_overrides int args config = Ok config' ->
  (forall key n, In (key, Some n) (int_options args) -> n <> 0 ->
     dict_get key config' = Some (VInt n))
  /\ (forall key s, In (key, Some s) (str_options args) -> s <> EmptyString ->
        dict_get key config' = Some (VStr s)).
Proof.
  intros E. split.
  - intros key n Hin Hn. rewrite (overrides_get_int _ _ _ _ _ _ E Hin).
    destruct (Z.eqb_spec n 0); [contradiction | reflexivity].
  - intros key s Hin Hs. rewrite (overrides_get_str _ _ _ _ _ _ E Hin).
    destruct s; [contradiction | reflexivity].
Qed.

Lemma given_option_wins_witness :
  dict_get "samples"
    [("blend_file", VStr "a.blend"); ("samples", VInt 64);
     ("engine", VStr "EEVEE")]%string
  = Some (VInt 64).
Proof.
  apply (proj1 (given_option_wins decimal
           (mkArgs (Some 64) (Some "EEVEE"%string) None None None None None
              None None)
           [("blend_file", VStr "a.blend"); ("samples", VInt 128)]%string
           _ eq_refl)).
  - left. reflexivity.
  - discriminate.
Defined.

(** An option that is absent, the number 0 or the empty string is ignored:
    [--samples 0] or [--width 0] leaves the value of the file in place (or the
    key missing), as if the option had not been given. *)
Theorem falsy_option_ignored (int : string -> result Z) (args : Args)
    (config config' : Config) :
  apply_overrides int args config = Ok config' ->
  (forall key arg, In (key, arg) (int_options args) ->
     arg = None \/ arg = Some 0 -> dict_get key config' = dict_get key config)
  /\ (forall key arg, In (key, arg) (str_options args) ->
        arg = None \/ arg = Some EmptyString ->
        dict_get key config' = dict_get key config).
Proof.
  intros E. split.
  - intros key arg Hin Hfalsy. rewrite (overrides_get_int _ _ _ _ _ _ E Hin).
    destruct Hfalsy as [-> | ->]; reflexivity.
  - intros key arg Hin Hfalsy. rewrite (overrides_get_str _ _ _ _ _ _ E Hin).
    destruct Hfalsy as [-> | ->]; reflexivity.
Qed.

Lemma falsy_option_ignored_witness :
  dict_get "samples" [("samples", VInt 128); ("output_width", VInt 640)]%string
  = dict_get "samples" [("samples", VInt 128)]%string.
Proof.
  apply (proj1 (falsy_option_ignored decimal
           (mkArgs (Some 0) None None (Some 640) None None None None None)
           [("samples", VInt 128)]%string _ eq_refl) "samples"%string (Some 0)).
  - left. reflexivity.
  - right. reflexivity.
Defined.

(** When [--preset] is given, the first [main] stores the parsed pairs under
    ["presets"], replacing what the file held, also when there are none: a
    single argument, which makes no pair, replaces the configured presets by
    the empty list. *)
Theorem preset_option_replaces_presets (int : string -> result Z) (args : Args)
    (config config' : Config) (first : string) (others : list string) :
  apply_overrides int args config = Ok config' ->
  arg_preset args = Some (first :: others) ->
  (exists presets,
      parse_presets int (first :: others) = Ok presets
      /\ dict_get "presets" config' = Some (presets_value presets))
  /\ (others = [] -> dict_get "presets" config' = Some (VList [])).
Proof.
  intros E Harg. destruct (apply_overrides_inv _ _ _ _ E) as (mid & Hmid & ->).
  rewrite Harg in Hmid. cbn [override_presets] in Hmid.
  destruct (parse_presets int (first :: others)) as [presets|e] eqn:Ep;
    cbn [bind] in Hmid; [|discriminate].
  injection Hmid as <-.
  assert (Hget : dict_get "presets"
                   (override_str "output_dir" (arg_output args)
                      (override_cameras (arg_cameras args)
                         (dict_set "presets" (presets_value presets)
                            (override_str "threads_color" (arg_threads_color args)
                              (override_int "output_height" (arg_height args)
                                (override_int "output_width" (arg_width args)
                                  (override_int "resolution_scale" (arg_resolution args)
                                    (override_str "engine" (arg_engine args)
                                      (override_int "samples" (arg_samples args)
                                         config)))))))))
                 = Some (presets_value presets)).
  { rewrite override_str_get_other, override_cameras_get_other by discriminate.
    apply dict_get_set_same. }
  split; [eauto|].
  intros ->. rewrite Hget. cbn in Ep. injection Ep as <-. reflexivity.
Qed.

Lemma preset_option_replaces_presets_witness :
  dict_get "presets" [("presets", VList [])]%string = Some (VList []).
Proof.
  apply (proj2 (preset_option_replaces_presets decimal
           (mkArgs None None None None None None (Some ["Camera.001"%string])
              None None)
           [("presets", VList [VList [VStr "Camera.007"; VInt 1]])]%string
           _ "Camera.001"%string [] eq_refl eq_refl)).
  reflexivity.
Defined.

(** In the second [main], when [int] fails with [ValueError] only (as the
    builtin does on strings), [--preset] ends the program with status 1
    exactly when the frame of some pair is rejected; otherwise the program
    goes on, and a list of arguments that makes no pair leaves the
    configuration as it was. *)
Theorem bad_frame_exits (int : string -> result Z) (preset : list string)
    (config : Config) :
  (forall s e, int s = Raise e -> e = ValueError) ->
  (override_presets_exit int (Some preset) config = Failed (SystemExit 1)
   <-> exists c f, In (c, f) (pair_up preset) /\ int f = Raise ValueError)
  /\ ((forall c f, In (c, f) (pair_up preset) -> exists n, int f = Ok n) ->
      exists config', override_presets_exit int (Some preset) config
                      = Returned config')
  /\ (pair_up preset = [] ->
      override_presets_exit int (Some preset) config = Returned config).
Proof.
  intros Hint. split; [split|split].
  - destruct preset as [|p ps]; [discriminate|]. cbn [override_presets_exit].
    rewrite parse_presets_pairs.
    destruct (convert_pairs int (pair_up (p :: ps))) as [[|q qs]|e] eqn:E;
      try discriminate.
    destruct (convert_pairs_raise _ _ _ E) as (c & f & Hin & Hf).
    pose proof (Hint _ _ Hf). subst e. eauto.
  - intros (c & f & Hin & Hf).
    destruct preset as [|p ps]; [destruct Hin|]. cbn [override_presets_exit].
    rewrite parse_presets_pairs.
    destruct (convert_pairs int (pair_up (p :: ps))) as [presets|e] eqn:E.
    + exfalso. destruct (convert_pairs_ok _ _ _ E) as [Hl Hn].
      apply In_nth_error in Hin as [k Hk].
      assert (Hsome : exists cn, nth_error presets k = Some cn).
      { destruct (nth_error presets k) as [cn|] eqn:En; [eauto|].
        apply nth_error_None in En. assert (nth_error (pair_up (p :: ps)) k <> None)
          by congruence. apply nth_error_Some in H. lia. }
      destruct Hsome as [[c' n] Hcn]. destruct (Hn _ _ _ Hcn) as (f' & Hf' & Hok).
      rewrite Hk in Hf'. injection Hf' as <- <-. congruence.
    + destruct (convert_pairs_raise _ _ _ E) as (c' & f' & _ & Hf').
      rewrite (Hint _ _ Hf'). reflexivity.
  - intros Hall. destruct preset as [|p ps]; [eexists; reflexivity|].
    destruct (convert_pairs_total int _ Hall) as [presets E].
    rewrite <- parse_presets_pairs in E. cbn [override_presets_exit].
    rewrite E. destruct presets; eexists; reflexivity.
  - intros Hnil. destruct preset as [|p ps]; [reflexivity|].
    cbn [override_presets_exit]. rewrite parse_presets_pairs, Hnil. reflexivity.
Qed.

Lemma decimal_aux_raises (s : string) (acc : Z) (e : exn) :
  decimal_aux s acc = Raise e -> e = ValueError.
Proof.
  revert acc. induction s as [|a s IH]; intros acc; cbn [decimal_aux].
  - discriminate.
  - destruct ((0 <=? Z.of_nat (nat_of_ascii a) - 48)
              && (Z.of_nat (nat_of_ascii a) - 48 <=? 9)); [apply IH|].
    intros H. injection H as <-. reflexivity.
Qed.

Lemma decimal_raises (s : string) (e : exn) :
  decimal s = Raise e -> e = ValueError.
Proof.
  destruct s as [|a s]; [intros H; injection H as <-; reflexivity|].
  apply decimal_aux_raises.
Qed.

Lemma bad_frame_exits_witness :
  override_presets_exit decimal (Some ["Camera.001"; "18o"]%string) []
  = Failed (SystemExit 1).
Proof.
  apply (proj1 (bad_frame_exits decimal ["Camera.001"; "18o"]%string []
                  decimal_raises)).
  exists "Camera.001"%string, "18o"%string. split; [left|]; reflexivity.
Defined.

(** ** The render engine *)

Lemma map_get_default_engine (s : string) :
  map_get_default s engine_map "CYCLES"
  = if String.eqb "EEVEE" s then "BLENDER_EEVEE_NEXT"%string else "CYCLES"%string.
Proof.
  unfold engine_map. cbn [map_get_default].
  destruct (String.eqb "CYCLES" s) eqn:E1; [|reflexivity].
  apply String.eqb_eq in E1. subst s. reflexivity.
Qed.

(** The engine handed to Blender is always one of [CYCLES] and
    [BLENDER_EEVEE_NEXT]: it is [BLENDER_EEVEE_NEXT] exactly when the
    configuration holds the string [EEVEE]; every other value that can be
    looked up (any other string, a number, a boolean, null) gives [CYCLES]
    without a message; a list or a dict raises [TypeError]; a missing
    ["engine"] key raises [KeyError]. *)
Theorem engine_falls_back_to_cycles (config : Config) :
  (forall name, blender_engine config = Returned name ->
     name = "CYCLES"%string \/ name = "BLENDER_EEVEE_NEXT"%string)
  /\ (blender_engine config = Returned "BLENDER_EEVEE_NEXT"%string
      <-> dict_get "engine" config = Some (VStr "EEVEE"))
  /\ (forall v, dict_get "engine" config = Some v ->
        v <> VStr "EEVEE" ->
        (forall l, v <> VList l) -> (forall d, v <> VDict d) ->
        blender_engine config = Returned "CYCLES"%string)
  /\ (forall v, dict_get "engine" config = Some v ->
        (exists l, v = VList l) \/ (exists d, v = VDict d) ->
        blender_engine config = Failed TypeError)
  /\ (blender_engine config = Failed (KeyError "engine")
      <-> dict_get "engine" config = None).
Proof.
  unfold blender_engine.
  destruct (dict_get "engine" config) as [v|].
  - assert (Hret : forall name,
              match v with
              | VStr s => Returned (map_get_default s engine_map "CYCLES")
              | VList _ | VDict _ => Failed TypeError
              | _ => Returned "CYCLES"%string
              end = Returned name ->
              name = "CYCLES"%string \/ name = "BLENDER_EEVEE_NEXT"%string).
    { intros name. destruct v as [| b | n | x | s | l | d];
        try solve [intros H; injection H as <-; auto];
        try (intros H; discriminate H).
      rewrite map_get_default_engine.
      destruct (String.eqb "EEVEE" s); intros H; injection H as <-; auto. }
    split; [exact Hret|]. split; [|split; [|split; [|split]]].
    + destruct v as [| b | n | x | s | l | d];
        try (split; intros H; discriminate H).
      rewrite map_get_default_engine.
      destruct (String.eqb "EEVEE" s) eqn:E.
      * apply String.eqb_eq in E. subst s. split; reflexivity.
      * apply String.eqb_neq in E. split; intros H; [discriminate H|].
        injection H as ->. contradiction.
    + intros v' Hv Hne Hl Hd. injection Hv as <-.
      destruct v as [| b | n | x | s | l | d]; try reflexivity.
      * rewrite map_get_default_engine.
        destruct (String.eqb "EEVEE" s) eqn:E; [|reflexivity].
        apply String.eqb_eq in E. subst s. contradiction.
      * exfalso. apply (Hl l). reflexivity.
      * exfalso. apply (Hd d). reflexivity.
    + intros v' Hv Hcase. injection Hv as <-.
      destruct Hcase as [[l ->] | [d ->]]; reflexivity.
    + destruct v as [| b | n | x | s | l | d]; intros H; discriminate H.
    + intros H; discriminate H.
  - split; [intros name H; discriminate H|].
    split; [split; intros H; discriminate H|].
    split; [intros v H; discriminate H|].
    split; [intros v H; discriminate H|].
    split; reflexivity.
Qed.

Lemma engine_falls_back_to_cycles_witness :
  blender_engine [("engine", VStr "eevee")]%string = Returned "CYCLES"%string.
Proof.
  apply (proj1 (proj2 (proj2
           (engine_falls_back_to_cycles [("engine", VStr "eevee")]%string)))
           (VStr "eevee")); [reflexivity | discriminate | discriminate..].
Defined.

(** ** The replacements of the render script *)







(** The colour written into the script is the one extracted from the pattern
    image: when the replacements are produced, the image was decoded, the
    extractor returned a string, and that string is what replaces
    [__THREADS_COLOR_PLACEHOLDER__], last of the ten replacements; for an
    image of 8-bit channels it has the form [#RRGGBB]. *)
Theorem thread_color_comes_from_pattern (B : Builtins) (config : Config)
    (engine name : string) (pairs : list (string * string)) :
  script_replacements B config engine name = Returned pairs ->
  exists im color front,
    open_rgba B name = Returned im
    /\ extract_thread_color_from_pattern im = Ok color
    /\ pairs = front ++ [("__THREADS_COLOR_PLACEHOLDER__"%string, color)]
    /\ List.length front = 9%nat
    /\ (dims_ok im -> channels_ok im -> matches_hex_color color = true).
Proof.
  unfold script_replacements. intros E.
  destruct (py_repr_tuple B _) as [cameras_str|e]; cbn [obind] in E; [|discriminate].
  destruct (open_rgba B name) as [im|e]; cbn [obind] in E; [|discriminate].
  destruct (extract_thread_color_from_pattern im) as [color|e] eqn:Ex;
    cbn [uncaught obind] in E; [|discriminate].
  destruct (dict_item "samples" config) as [samples|e]; cbn [obind] in E;
    [|discriminate].
  destruct (dict_item "resolution_scale" config) as [scale|e]; cbn [obind] in E;
    [|discriminate].
  injection E as <-.
  exists im, color. eexists.
  split; [reflexivity|]. split; [exact Ex|].
  split; [cbv zeta; rewrite <- (firstn_skipn 9) at 1; reflexivity|].
  split; [reflexivity|].
  intros Hd Hc. destruct (extract_source_pixel im Hd) as (x & y & Hin & Es & _).
  destruct (hex_color_bytes (rgb (pixel_at im x y))) as (_ & Hm & _).
  { apply rgb_byte_color. apply Hc. exact Hin. }
  rewrite Es in Ex. injection Ex as <-. exact Hm.
Qed.

Lemma thread_color_comes_from_pattern_witness :
  exists im color front,
    open_rgba sample_builtins "a.png" = Returned im
    /\ extract_thread_color_from_pattern im = Ok color
    /\ [("__PATTERN_PLACEHOLDER__", "a.png");
        ("__PATTERN_BASE_PLACEHOLDER__", "a.png");
        ("__ENGINE_PLACEHOLDER__", "CYCLES");
        ("__SAMPLES_PLACEHOLDER__", "64");
        ("__SCALE_PLACEHOLDER__", "100");
        ("__OUTPUT_WIDTH_PLACEHOLDER__", "480");
        ("__OUTPUT_HEIGHT_PLACEHOLDER__", "480");
        ("__PRESETS_PLACEHOLDER__", "[]");
        ("__CAMERAS_PLACEHOLDER__", "()");
        ("__THREADS_COLOR_PLACEHOLDER__", "#007FFF")]%string
       = front ++ [("__THREADS_COLOR_PLACEHOLDER__"%string, color)]
    /\ List.length front = 9%nat
    /\ (dims_ok im -> channels_ok im -> matches_hex_color color = true).
Proof.
  apply (thread_color_comes_from_pattern sample_builtins sample_config "CYCLES").
  vm_compute. reflexivity.
Defined.

(** ["samples"] and ["resolution_scale"] are required, the other keys are
    not: without one of the two no replacements are produced, while a missing
    ["output_width"] or ["output_height"] is rendered as 480 and missing
    ["presets"] as the empty list. *)
Theorem required_and_default_keys (B : Builtins) (config : Config)
    (engine name : string) :
  (dict_get "samples" config = None \/ dict_get "resolution_scale" config = None ->
   forall pairs, script_replacements B config engine name <> Returned pairs)
  /\ (forall pairs, script_replacements B config engine name = Returned pairs ->
      (dict_get "output_width" config = None ->
       In ("__OUTPUT_WIDTH_PLACEHOLDER__"%string, py_str B (VInt 480)) pairs)
      /\ (dict_get "output_height" config = None ->
          In ("__OUTPUT_HEIGHT_PLACEHOLDER__"%string, py_str B (VInt 480)) pairs)
      /\ (dict_get "presets" config = None ->
          In ("__PRESETS_PLACEHOLDER__"%string, py_repr B (VList [])) pairs)).
Proof.
  unfold script_replacements. split.
  - intros Hmiss pairs E.
    destruct (py_repr_tuple B _) as [cameras_str|e]; cbn [obind] in E; [|discriminate].
    destruct (open_rgba B name) as [im|e]; cbn [obind] in E; [|discriminate].
    destruct (extract_thread_color_from_pattern im) as [color|e];
      cbn [uncaught obind] in E; [|discriminate].
    unfold dict_item in E.
    destruct (dict_get "samples" config) as [samples|]; cbn [obind] in E;
      [|discriminate].
    destruct (dict_get "resolution_scale" config) as [scale|]; cbn [obind] in E;
      [|discriminate].
    destruct Hmiss; discriminate.
  - intros pairs E.
    destruct (py_repr_tuple B _) as [cameras_str|e]; cbn [obind] in E; [|discriminate].
    destruct (open_rgba B name) as [im|e]; cbn [obind] in E; [|discriminate].
    destruct (extract_thread_color_from_pattern im) as [color|e];
      cbn [uncaught obind] in E; [|discriminate].
    destruct (dict_item "samples" config) as [samples|e]; cbn [obind] in E;
      [|discriminate].
    destruct (dict_item "resolution_scale" config) as [scale|e]; cbn [obind] in E;
      [|discriminate].
    injection E as <-. unfold dict_get_default.
    repeat split; intros ->; cbn [In]; tauto.
Qed.
